(** * ScavengerBackupProxmox: retention of Proxmox VE backup archives

    A shallow embedding of [main.py] and the properties of its three parts:
    the file-name parser ([parse_backup_filename]), the retention planner
    (the grouping, sorting and slicing loop of [main]) and the deletion
    executor ([delete_backup_files]).

    Conventions of the embedding.
    - A Python [str] is a [string]; file names are taken over the ASCII
      range, where the classes [\w] and [\d] of [re] are [[A-Za-z0-9_]] and
      [[0-9]].
    - A Python [int] is a [Z]; the bound of the interpreter on the number
      of digits that [int] converts (4300 by default, far above the length
      of a file name) is not modelled.
    - A [Path] is the list of its components and the file system an
      association list in the order of a directory scan; an entry is a
      directory or a file, and the system may refuse to remove a file.
      Symbolic links are not modelled: every entry that a scan lists
      exists.
    - A call that may raise returns a [result]; code that reads or changes
      the file system or prints runs in the monad [M] over a [world].
    - [print] appends an event to the console of the world; the layout of
      the text is not modelled. *)

From Stdlib Require Import ZArith List String Ascii Bool Lia.
From Stdlib Require Import Permutation Sorted.
Import ListNotations.

Local Open Scope string_scope.
Local Open Scope Z_scope.

(** ** Exceptions and results *)

Inductive exn : Type :=
| ValueError
| FileNotFoundError
| IsADirectoryError
| PermissionError.

Inductive result (A : Type) : Type :=
| Ret (a : A)
| Raise (e : exn).

Arguments Ret {A} a.
Arguments Raise {A} e.

(** ** Python [str] operations *)

Module Str.

(** [s.startswith(p)], returning what follows the prefix. *)
Fixpoint strip_prefix (p s : string) : option string :=
  match p with
  | EmptyString => Some s
  | String a p' =>
      match s with
      | EmptyString => None
      | String c s' => if Ascii.eqb a c then strip_prefix p' s' else None
      end
  end.

Definition startswith (s p : string) : bool :=
  match strip_prefix p s with Some _ => true | None => false end.

Fixpoint drop (n : nat) (s : string) : string :=
  match n, s with
  | O, _ => s
  | S k, String _ t => drop k t
  | S _, EmptyString => EmptyString
  end.

Definition endswith (s p : string) : bool :=
  String.eqb (drop (String.length s - String.length p) s) p
  && (String.length p <=? String.length s)%nat.

(** [s.replace(old, new)] for a non-empty [old]: the occurrences of [old]
    are found from left to right and do not overlap; each one is replaced.
    [skip] counts the characters of the current occurrence still to be
    dropped. *)
Fixpoint replace_from (old new : string) (skip : nat) (s : string) : string :=
  match s with
  | EmptyString => EmptyString
  | String c t =>
      match skip with
      | S k => replace_from old new k t
      | O =>
          if startswith s old
          then new ++ replace_from old new (String.length old - 1) t
          else String c (replace_from old new 0 t)
      end
  end.

Definition replace (s old new : string) : string := replace_from old new 0 s.

(** [int(s)] on a string of decimal digits. *)
Definition digit_value (c : ascii) : Z := Z.of_N (N_of_ascii c) - 48.

Fixpoint int_from (acc : Z) (s : string) : Z :=
  match s with
  | EmptyString => acc
  | String c t => int_from (10 * acc + digit_value c) t
  end.

Definition int (s : string) : Z := int_from 0 s.

Fixpoint all (p : ascii -> bool) (s : string) : bool :=
  match s with
  | EmptyString => true
  | String c t => p c && all p t
  end.

End Str.

(** ** The regular expression of [parse_backup_filename] *)

Module Re.

Definition in_range (lo hi : N) (c : ascii) : bool :=
  (lo <=? N_of_ascii c)%N && (N_of_ascii c <=? hi)%N.

(** [\d] *)
Definition is_digit (c : ascii) : bool := in_range 48 57 c.

(** [\w] *)
Definition is_word (c : ascii) : bool :=
  is_digit c || in_range 65 90 c || in_range 97 122 c || Ascii.eqb c "_".

(** The longest prefix of characters of a class, and what follows it. *)
Fixpoint span (p : ascii -> bool) (s : string) : string * string :=
  match s with
  | EmptyString => (EmptyString, EmptyString)
  | String c t =>
      if p c
      then let (a, b) := span p t in (String c a, b)
      else (EmptyString, s)
  end.

(** [(c+)]: one or more characters of the class, as many as there are.
    In the pattern every [+] is followed by a ["-"], which is in neither
    class, so giving characters back never helps and the greedy match is
    the only one ([re_match_iff] below). *)
Definition many1 (p : ascii -> bool) (s : string) : option (string * string) :=
  match span p s with
  | (EmptyString, _) => None
  | (a, b) => Some (a, b)
  end.

(** [(c{n})]: exactly [n] characters of the class. *)
Fixpoint exactly (n : nat) (p : ascii -> bool) (s : string)
  : option (string * string) :=
  match n with
  | O => Some (EmptyString, s)
  | S k =>
      match s with
      | EmptyString => None
      | String c t =>
          if p c
          then match exactly k p t with
               | Some (a, b) => Some (String c a, b)
               | None => None
               end
          else None
      end
  end.

Definition lit := Str.strip_prefix.

(** The eight groups of a match. *)
Record groups : Type := mk_groups {
  group1 : string; group2 : string; group3 : string; group4 : string;
  group5 : string; group6 : string; group7 : string; group8 : string
}.

Notation "'let?' x ':=' e 'in' k" :=
  (match e with Some x => k | None => None end)
    (at level 10, x pattern, e at level 100, k at level 200).

(** [re.match(pattern, s)] for
    [vzdump-(\w+)-(\d+)-(\d{4})_(\d{2})_(\d{2})-(\d{2})_(\d{2})_(\d{2})]:
    the groups and the unmatched rest of [s], or [None]. *)
Definition re_match (s : string) : option (groups * string) :=
  let? s := lit "vzdump-" s in
  let? (a1, s) := many1 is_word s in
  let? s := lit "-" s in
  let? (a2, s) := many1 is_digit s in
  let? s := lit "-" s in
  let? (a3, s) := exactly 4 is_digit s in
  let? s := lit "_" s in
  let? (a4, s) := exactly 2 is_digit s in
  let? s := lit "_" s in
  let? (a5, s) := exactly 2 is_digit s in
  let? s := lit "-" s in
  let? (a6, s) := exactly 2 is_digit s in
  let? s := lit "_" s in
  let? (a7, s) := exactly 2 is_digit s in
  let? s := lit "_" s in
  let? (a8, s) := exactly 2 is_digit s in
  Some (mk_groups a1 a2 a3 a4 a5 a6 a7 a8, s).

(** What the pattern denotes: [s] starts with an instance of the pattern
    with groups [g], followed by [rest]. *)
Definition instance (g : groups) : string :=
  "vzdump-" ++ group1 g ++ "-" ++ group2 g ++ "-" ++
  group3 g ++ "_" ++ group4 g ++ "_" ++ group5 g ++ "-" ++
  group6 g ++ "_" ++ group7 g ++ "_" ++ group8 g.

Definition well_formed (g : groups) : Prop :=
  group1 g <> EmptyString /\ Str.all is_word (group1 g) = true /\
  group2 g <> EmptyString /\ Str.all is_digit (group2 g) = true /\
  (String.length (group3 g) = 4%nat /\ Str.all is_digit (group3 g) = true) /\
  (String.length (group4 g) = 2%nat /\ Str.all is_digit (group4 g) = true) /\
  (String.length (group5 g) = 2%nat /\ Str.all is_digit (group5 g) = true) /\
  (String.length (group6 g) = 2%nat /\ Str.all is_digit (group6 g) = true) /\
  (String.length (group7 g) = 2%nat /\ Str.all is_digit (group7 g) = true) /\
  (String.length (group8 g) = 2%nat /\ Str.all is_digit (group8 g) = true).

Definition matches_at_start (s : string) (g : groups) (rest : string) : Prop :=
  s = instance g ++ rest /\ well_formed g.

End Re.

(** ** [datetime] *)

Record datetime : Type := mk_datetime {
  year : Z; month : Z; day : Z; hour : Z; minute : Z; second : Z
}.

Module Datetime.

Definition is_leap (y : Z) : bool :=
  (y mod 4 =? 0) && (negb (y mod 100 =? 0) || (y mod 400 =? 0)).

Definition days_in_month (y m : Z) : Z :=
  if m =? 2 then (if is_leap y then 29 else 28)
  else if (m =? 4) || (m =? 6) || (m =? 9) || (m =? 11) then 30
  else 31.

Definition between (lo x hi : Z) : bool := (lo <=? x) && (x <=? hi).

(** The fields a [datetime] accepts: [MINYEAR = 1], [MAXYEAR = 9999]. *)
Definition valid (y mo d h mi s : Z) : bool :=
  between 1 y 9999 && between 1 mo 12 && between 1 d (days_in_month y mo)
  && between 0 h 23 && between 0 mi 59 && between 0 s 59.

Definition valid_datetime (t : datetime) : bool :=
  valid (year t) (month t) (day t) (hour t) (minute t) (second t).

(** [datetime(year, month, day, hour, minute, second)] *)
Definition new (y mo d h mi s : Z) : result datetime :=
  if valid y mo d h mi s
  then Ret (mk_datetime y mo d h mi s)
  else Raise ValueError.

Definition fields (t : datetime) : list Z :=
  [year t; month t; day t; hour t; minute t; second t].

(** Comparison of two [datetime]s: field by field, the year first. *)
Fixpoint lex_compare (a b : list Z) : comparison :=
  match a, b with
  | [], [] => Eq
  | [], _ :: _ => Lt
  | _ :: _, [] => Gt
  | x :: a', y :: b' =>
      match x ?= y with
      | Eq => lex_compare a' b'
      | c => c
      end
  end.

Definition compare (t u : datetime) : comparison :=
  lex_compare (fields t) (fields u).

(** [t < u] *)
Definition ltb (t u : datetime) : bool :=
  match compare t u with Lt => true | _ => false end.

(** [t <= u] *)
Definition leb (t u : datetime) : bool :=
  match compare t u with Gt => false | _ => true end.

(** [t == u] *)
Definition eqb (t u : datetime) : bool :=
  match compare t u with Eq => true | _ => false end.

End Datetime.

(** ** [parse_backup_filename] *)

(** The dictionary the parser returns. *)
Record backup_info : Type := mk_info {
  vm_type : string;
  vm_id : Z;
  timestamp : datetime
}.

Definition parse_backup_filename (filename : string)
  : result (option backup_info) :=
  match Re.re_match filename with
  | None => Ret None
  | Some (g, _) =>
      let vm_type := Re.group1 g in
      let vm_id := Str.int (Re.group2 g) in
      let year := Str.int (Re.group3 g) in
      let month := Str.int (Re.group4 g) in
      let day := Str.int (Re.group5 g) in
      let hour := Str.int (Re.group6 g) in
      let minute := Str.int (Re.group7 g) in
      let second := Str.int (Re.group8 g) in
      match Datetime.new year month day hour minute second with
      | Raise e => Raise e
      | Ret timestamp => Ret (Some (mk_info vm_type vm_id timestamp))
      end
  end.

(** Lines 55 to 71 as a function of the groups of the match. *)
Definition result_of_groups (g : Re.groups) : result (option backup_info) :=
  match Datetime.new (Str.int (Re.group3 g)) (Str.int (Re.group4 g))
                     (Str.int (Re.group5 g)) (Str.int (Re.group6 g))
                     (Str.int (Re.group7 g)) (Str.int (Re.group8 g)) with
  | Raise e => Raise e
  | Ret t => Ret (Some (mk_info (Re.group1 g) (Str.int (Re.group2 g)) t))
  end.

(** Whether [datetime] accepts the six numbers of a match. *)
Definition valid_groups (g : Re.groups) : bool :=
  Datetime.valid (Str.int (Re.group3 g)) (Str.int (Re.group4 g))
                 (Str.int (Re.group5 g)) (Str.int (Re.group6 g))
                 (Str.int (Re.group7 g)) (Str.int (Re.group8 g)).

(** ** [list.sort(key=..., reverse=True)]

    Python's sort is stable, also with [reverse=True]: elements whose keys
    compare equal keep the order they had.  It is modelled as an insertion
    that puts an element in front of the first one whose key is not greater;
    [sort_reverse_unique] below shows that any sort which is stable and
    descending returns this very list. *)

Section Sort.

Context {A : Type}.
Variable key : A -> datetime.

Fixpoint insert_reverse (x : A) (l : list A) : list A :=
  match l with
  | [] => [x]
  | y :: l' =>
      if Datetime.ltb (key x) (key y)
      then y :: insert_reverse x l'
      else x :: l
  end.

Definition sort_reverse (l : list A) : list A :=
  fold_right insert_reverse [] l.

(** Descending by key: every element is at least as recent as those after
    it. *)
Definition descending : list A -> Prop :=
  StronglySorted (fun a b => Datetime.leb (key b) (key a) = true).

(** The elements whose key equals [t], in the order of the list. *)
Definition with_key (t : datetime) (l : list A) : list A :=
  filter (fun a => Datetime.eqb (key a) t) l.

End Sort.

(** [sorted(keys)] on integers. *)
Fixpoint insert_Z (x : Z) (l : list Z) : list Z :=
  match l with
  | [] => [x]
  | y :: l' => if y <? x then y :: insert_Z x l' else x :: l
  end.

Definition sorted (l : list Z) : list Z := fold_right insert_Z [] l.

(** [l[start:]], with Python's reading of a negative [start]. *)
Definition slice_from {A : Type} (l : list A) (start : Z) : list A :=
  let n := Z.of_nat (List.length l) in
  let i := if start <? 0 then Z.max (n + start) 0 else Z.min start n in
  skipn (Z.to_nat i) l.

Definition len {A : Type} (l : list A) : Z := Z.of_nat (List.length l).

(** ** Paths and the file system *)

(** A [Path] is the list of its components; [backup_file.name] is the last
    one and [backup_file.parent] the others. *)
Definition Path : Type := list string.

Definition name (p : Path) : string := last p EmptyString.
Definition parent (p : Path) : Path := removelast p.

(** [p / s] for a single component [s]. *)
Definition joinpath (p : Path) (s : string) : Path := (p ++ [s])%list.

Definition path_eqb (p q : Path) : bool :=
  if list_eq_dec string_dec p q then true else false.

(** An entry of the file system: a file with its size, which the system
    may refuse to remove (immutable, or in a directory without write
    permission), or a directory. *)
Inductive node : Type :=
| File (size : Z) (protected : bool)
| Dir (size : Z).

Definition st_size (n : node) : Z :=
  match n with File size _ => size | Dir size => size end.

(** The entries in the order in which a directory scan yields them. *)
Definition filesystem : Type := list (Path * node).

Fixpoint lookup (p : Path) (f : filesystem) : option node :=
  match f with
  | [] => None
  | (q, n) :: f' => if path_eqb p q then Some n else lookup p f'
  end.

Definition remove (p : Path) (f : filesystem) : filesystem :=
  filter (fun e => negb (path_eqb p (fst e))) f.

(** What [print] writes, one constructor per call of [main.py]. *)
Inductive event : Type :=
| DryRunDelete (file_name : string)
| Deleting (file_name : string)
| NoSuchDirectory (backup_path : Path)
| NotADirectory (backup_path : Path)
| DirectoryExists
| FoundFiles (count : Z)
| PerVmHeader
| PerVm (vm : Z) (count : Z)
| FoundOld (count : Z)
| Keeping (keep : Z)
| Selected (vm : Z) (t : datetime) (file_name : string)
| Total (committed : bool) (total_freed : Z)
| DryRunNotice.

Record world : Type := mk_world {
  fs : filesystem;
  console : list event
}.

(** ** The monad of [main.py]: state and exceptions *)

Definition M (A : Type) : Type := world -> result A * world.

Definition ret {A : Type} (a : A) : M A := fun w => (Ret a, w).

Definition bind {A B : Type} (m : M A) (k : A -> M B) : M B :=
  fun w =>
    match m w with
    | (Ret a, w') => k a w'
    | (Raise e, w') => (Raise e, w')
    end.

Notation "x <- m ;; k" := (bind m (fun x => k))
  (at level 61, m at next level, right associativity).
Notation "m ;;; k" := (bind m (fun _ => k))
  (at level 61, right associativity).

(** [for x in l: body], threading the local variables [s] of the loop. *)
Fixpoint for_each {X S : Type} (l : list X) (body : X -> S -> M S) (s : S)
  : M S :=
  match l with
  | [] => ret s
  | x :: l' => s' <- body x s ;; for_each l' body s'
  end.

Definition print (e : event) : M unit :=
  fun w => (Ret tt, mk_world (fs w) (console w ++ [e])%list).

(** [p.exists()] *)
Definition exists_ (p : Path) : M bool :=
  fun w =>
    (Ret (match lookup p (fs w) with Some _ => true | None => false end),
     w).

(** [p.is_dir()] *)
Definition is_dir (p : Path) : M bool :=
  fun w =>
    (Ret (match lookup p (fs w) with Some (Dir _) => true | _ => false end),
     w).

(** [p.stat().st_size] *)
Definition stat_size (p : Path) : M Z :=
  fun w =>
    match lookup p (fs w) with
    | Some n => (Ret (st_size n), w)
    | None => (Raise FileNotFoundError, w)
    end.

(** [p.unlink()] *)
Definition unlink (p : Path) : M unit :=
  fun w =>
    match lookup p (fs w) with
    | None => (Raise FileNotFoundError, w)
    | Some (Dir _) => (Raise IsADirectoryError, w)
    | Some (File _ true) => (Raise PermissionError, w)
    | Some (File _ false) => (Ret tt, mk_world (remove p (fs w)) (console w))
    end.

Definition is_child (dir p : Path) : bool :=
  match p with
  | [] => false
  | _ :: _ => path_eqb (parent p) dir
  end.

(** [list(backup_path.glob("*.vma.zst"))]: the entries of the directory
    whose name ends in [.vma.zst], in scan order. *)
Definition glob_list (backup_path : Path) (f : filesystem) : list Path :=
  map fst
      (filter (fun e => is_child backup_path (fst e)
                        && Str.endswith (name (fst e)) ".vma.zst")
              f).

Definition glob_vma_zst (backup_path : Path) : M (list Path) :=
  fun w => (Ret (glob_list backup_path (fs w)), w).

(** The exception with which [unlink] answers an entry, if any. *)
Definition unlink_error (n : node) : option exn :=
  match n with
  | Dir _ => Some IsADirectoryError
  | File _ true => Some PermissionError
  | File _ false => None
  end.

(** The file system after the entries at [ps] are removed. *)
Definition remove_all (ps : list Path) (f : filesystem) : filesystem :=
  fold_left (fun f p => remove p f) ps f.

(** The size of the entry at [p], and 0 when there is none. *)
Definition existing_size (f : filesystem) (p : Path) : Z :=
  match lookup p f with Some n => st_size n | None => 0 end.

Definition sum_sizes (f : filesystem) (ps : list Path) : Z :=
  fold_right (fun p total => existing_size f p + total) 0 ps.

(** The world after more lines are printed. *)
Definition say (w : world) (es : list event) : world :=
  mk_world (fs w) (console w ++ es)%list.

(** ** [delete_backup_files] *)

(** The list [related_files] (lines 21 to 27). *)
Definition related_files (backup_file : Path) : list Path :=
  let base_name := Str.replace (name backup_file) ".vma.zst" "" in
  [ backup_file;
    joinpath (parent backup_file) (base_name ++ ".log");
    joinpath (parent backup_file) (name backup_file ++ ".notes") ].

(** The body of the loop over [related_files] (lines 32 to 40). *)
Definition delete_one (dry_run : bool) (file : Path) (total_size : Z) : M Z :=
  e <- exists_ file ;;
  if e
  then
    size <- stat_size file ;;
    let total_size := total_size + size in
    (if dry_run
     then print (DryRunDelete (name file))
     else print (Deleting (name file)) ;;; unlink file) ;;;
    ret total_size
  else ret total_size.

Definition delete_backup_files (backup_file : Path) (dry_run : bool) : M Z :=
  for_each (related_files backup_file) (delete_one dry_run) 0.

(** ** [main] *)

Record Args : Type := mk_args {
  backup_dir : Path;
  keep : Z;
  execute : bool
}.

(** An element of the lists of [backups_by_vm]. *)
Record backup : Type := mk_backup {
  file : Path;
  info : backup_info
}.

(** [backups_by_vm]: a dictionary keeps its keys in the order in which they
    were first inserted. *)
Definition backups_dict : Type := list (Z * list backup).

(** [d[k].append(b)] on a [defaultdict(list)]. *)
Fixpoint dict_append (d : backups_dict) (k : Z) (b : backup) : backups_dict :=
  match d with
  | [] => [(k, [b])]
  | (k', l) :: d' =>
      if k' =? k then (k', (l ++ [b])%list) :: d'
      else (k', l) :: dict_append d' k b
  end.

Fixpoint dict_get (d : backups_dict) (k : Z) : list backup :=
  match d with
  | [] => []
  | (k', l) :: d' => if k' =? k then l else dict_get d' k
  end.

(** The loop of lines 119 to 125 on the names found by the scan. *)
Definition group_step (file : Path) (backups_by_vm : backups_dict)
  : result backups_dict :=
  match parse_backup_filename (name file) with
  | Raise e => Raise e
  | Ret None => Ret backups_by_vm
  | Ret (Some i) =>
      Ret (dict_append backups_by_vm (vm_id i) (mk_backup file i))
  end.

(** A value, or the exception that a call raised, inside [main]. *)
Definition lift {A : Type} (r : result A) : M A := fun w => (r, w).

Definition group_backups (backup_files : list Path) : M backups_dict :=
  for_each backup_files (fun file d => lift (group_step file d)) [].

Definition backup_key (b : backup) : datetime := timestamp (info b).

(** The body of the loop of lines 134 to 138: what one group adds to
    [old_backups]. *)
Definition select_old (keep : Z) (backups : list backup) : list backup :=
  let backups := sort_reverse backup_key backups in
  if len backups >? keep then slice_from backups keep else [].

(** What one group keeps: the part of the sorted list in front of the
    slice. *)
Definition retained (keep : Z) (backups : list backup) : list backup :=
  firstn (List.length backups - List.length (select_old keep backups))
         (sort_reverse backup_key backups).

(** Lines 132 to 138. *)
Definition plan (keep : Z) (backups_by_vm : backups_dict) : list backup :=
  fold_left
    (fun old_backups group => (old_backups ++ select_old keep (snd group))%list)
    backups_by_vm [].

(** The body of the loop of lines 145 to 152. *)
Definition delete_step (execute : bool) (b : backup) (total_freed : Z) : M Z :=
  print (Selected (vm_id (info b)) (timestamp (info b)) (name (file b))) ;;;
  freed <- delete_backup_files (file b) (negb execute) ;;
  ret (total_freed + freed).

(** After [parse_args]: lines 101 to 163.  A function that ends without
    [return] gives [None]. *)
Definition main (args : Args) : M (option Z) :=
  let backup_path := backup_dir args in
  e <- exists_ backup_path ;;
  if negb e
  then print (NoSuchDirectory backup_path) ;;; ret (Some 1)
  else
    d <- is_dir backup_path ;;
    if negb d
    then print (NotADirectory backup_path) ;;; ret (Some 1)
    else
      print DirectoryExists ;;;
      backup_files <- glob_vma_zst backup_path ;;
      print (FoundFiles (len backup_files)) ;;;
      backups_by_vm <- group_backups backup_files ;;
      print PerVmHeader ;;;
      for_each (sorted (map fst backups_by_vm))
        (fun vm _ => print (PerVm vm (len (dict_get backups_by_vm vm)))) tt ;;;
      let old_backups := plan (keep args) backups_by_vm in
      print (FoundOld (len old_backups)) ;;;
      print (Keeping (keep args)) ;;;
      total_freed <- for_each old_backups (delete_step (execute args)) 0 ;;
      (if total_freed >? 0
       then print (Total (execute args) total_freed)
       else ret tt) ;;;
      (if negb (execute args) then print DryRunNotice else ret tt) ;;;
      ret None.

(** [if __name__ == "__main__": main()]: the value of [main()] is dropped.
    The interpreter ends with status 0 when the script runs to its end and
    with status 1 when an exception is not caught. *)
Definition script (args : Args) (w : world) : Z * world :=
  match main args w with
  | (Ret _, w') => (0, w')
  | (Raise _, w') => (1, w')
  end.

(** The backups of a scan: the files whose name parses, in scan order
    (what the loop of lines 119 to 125 appends, whatever the group). *)
Fixpoint parsed_backups (backup_files : list Path) : list backup :=
  match backup_files with
  | [] => []
  | file :: rest =>
      match parse_backup_filename (name file) with
      | Ret (Some i) => mk_backup file i :: parsed_backups rest
      | _ => parsed_backups rest
      end
  end.

Definition of_vm (vm : Z) (l : list backup) : list backup :=
  filter (fun b => vm_id (info b) =? vm) l.

(** [backups_by_vm] after the loop of lines 119 to 125, as a function of
    the files of the scan and of the dictionary before the loop. *)
Fixpoint group_from (backup_files : list Path) (d : backups_dict)
  : result backups_dict :=
  match backup_files with
  | [] => Ret d
  | file :: rest =>
      match group_step file d with
      | Ret d' => group_from rest d'
      | Raise e => Raise e
      end
  end.

(** ** Vocabulary of the statements about the file system *)

(** [f'] is [f] without some entries, each of which was an entry of [f] at
    a place that [allowed] accepts. *)
Definition deleted (allowed : Path -> Prop) (f f' : filesystem) : Prop :=
  exists ps,
    f' = remove_all ps f
    /\ Forall (fun p => allowed p /\ lookup p f <> None) ps.

(** Every run of [m] changes the file system within [R]. *)
Definition fs_rel (R : filesystem -> filesystem -> Prop) {A : Type} (m : M A)
  : Prop :=
  forall w, R (fs w) (fs (snd (m w))).

(** The places at which a run may delete: the candidates of the files of
    the scan, and only with [--execute]. *)
Definition may_delete (args : Args) (w : world) (p : Path) : Prop :=
  execute args = true
  /\ exists backup_file,
       In backup_file (glob_list (backup_dir args) (fs w))
       /\ In p (related_files backup_file).

(** What [main] prints before the loop of line 145 and after it. *)
Definition header (args : Args) (backup_files : list Path) (d : backups_dict)
  : list event :=
  ([DirectoryExists; FoundFiles (len backup_files); PerVmHeader]
   ++ map (fun vm => PerVm vm (len (dict_get d vm))) (sorted (map fst d))
   ++ [FoundOld (len (plan (keep args) d)); Keeping (keep args)])%list.

Definition footer (execute : bool) (total_freed : Z) : list event :=
  ((if total_freed >? 0 then [Total execute total_freed] else [])
   ++ (if negb execute then [DryRunNotice] else []))%list.

(** ** Sample data *)

Module Sample.

Definition at_day (d : Z) : backup :=
  mk_backup
    ["b"; "vzdump-qemu-100-2025_01_0"
          ++ String (ascii_of_N (48 + Z.to_N d)) "-01_00_00.vma.zst"]
    (mk_info "qemu" 100 (mk_datetime 2025 1 d 1 0 0)).

(** Scenario A: five archives of VM 100, in the order of a scan. *)
Definition five : list backup :=
  [at_day 3; at_day 1; at_day 5; at_day 2; at_day 4].

(** A directory with two archives of VM 100; the older one has a log and
    no notes. *)
Definition newer : Path :=
  ["b"; "vzdump-qemu-100-2025_01_02-01_00_00.vma.zst"].
Definition older : Path :=
  ["b"; "vzdump-qemu-100-2025_01_01-01_00_00.vma.zst"].
Definition older_log : Path :=
  ["b"; "vzdump-qemu-100-2025_01_01-01_00_00.log"].

Definition two_archives (newer_protected : bool) : filesystem :=
  [ (["b"], Dir 4096);
    (older, File 1000 false);
    (older_log, File 10 false);
    (newer, File 2000 newer_protected) ].

(** An archive whose name holds the extension twice, next to the log of
    another file. *)
Definition twice : Path :=
  ["b"; "vzdump-qemu-100-2025_01_01-01_00_00.vma.zst.old.vma.zst"].
Definition other_log : Path :=
  ["b"; "vzdump-qemu-100-2025_01_01-01_00_00.old.log"].

Definition twice_fs : filesystem :=
  [ (["b"], Dir 4096); (twice, File 1000 false); (other_log, File 10 false) ].

End Sample.

(** ** Vocabulary of the statements about timestamps *)

(** [t] is strictly before [u] in time: the year decides, then the month,
    the day, the hour, the minute and the second. *)
Definition earlier (t u : datetime) : Prop :=
  year t < year u
  \/ (year t = year u
      /\ (month t < month u
          \/ (month t = month u
              /\ (day t < day u
                  \/ (day t = day u
                      /\ (hour t < hour u
                          \/ (hour t = hour u
                              /\ (minute t < minute u
                                  \/ (minute t = minute u
                                      /\ second t < second u))))))))).

Definition datetime_eq_dec (t u : datetime) : {t = u} + {t <> u}.
Proof. decide equality; apply Z.eq_dec. Defined.


(** ** Vocabulary of the statements about a whole run *)

(** The keys of a dictionary that was filled in this order: each key at
    the place where it is first seen. *)
Definition first_seen (keys : list Z) : list Z :=
  fold_left
    (fun seen k =>
       if in_dec Z.eq_dec k seen then seen else (seen ++ [k])%list)
    keys [].

(** The candidates of the backups of a list, in the order in which the
    loop of line 145 meets them. *)
Definition candidates_of (l : list backup) : list Path :=
  flat_map (fun b => related_files (file b)) l.

(** What the groups keep, group after group. *)
Definition retained_all (keep : Z) (d : backups_dict) : list backup :=
  flat_map (fun group => retained keep (snd group)) d.

(** [old] occurs in [s]. *)
Definition occurs (old s : string) : Prop :=
  exists a b, s = a ++ old ++ b.


(** The sum of a list of integers. *)
Definition sum_Z (l : list Z) : Z := fold_right Z.add 0 l.

(** The arguments with [--execute] set or not. *)
Definition with_execute (args : Args) (e : bool) : Args :=
  mk_args (backup_dir args) (keep args) e.

(** * Properties *)

(** ** Strings and the regular expression *)

Module StrFacts.

Lemma append_assoc (a b c : string) : (a ++ b) ++ c = a ++ (b ++ c).
Proof.
  induction a as [|x a IH]; simpl; [reflexivity | now rewrite IH].
Qed.

Lemma append_nil_r (a : string) : a ++ "" = a.
Proof.
  induction a as [|x a IH]; simpl; [reflexivity | now rewrite IH].
Qed.

Lemma length_append (a b : string) :
  String.length (a ++ b) = (String.length a + String.length b)%nat.
Proof.
  induction a as [|x a IH]; simpl; [reflexivity | now rewrite IH].
Qed.

Lemma strip_prefix_spec (p s t : string) :
  Str.strip_prefix p s = Some t -> s = p ++ t.
Proof.
  revert s; induction p as [|a p IH]; intros s H; simpl in *.
  - now inversion H.
  - destruct s as [|c s]; [discriminate|].
    destruct (Ascii.eqb_spec a c) as [->|]; [|discriminate].
    now rewrite (IH _ H).
Qed.

Lemma strip_prefix_append (p t : string) :
  Str.strip_prefix p (p ++ t) = Some t.
Proof.
  induction p as [|a p IH]; simpl; [reflexivity|].
  now rewrite Ascii.eqb_refl.
Qed.

Lemma strip_prefix_iff (p s t : string) :
  Str.strip_prefix p s = Some t <-> s = p ++ t.
Proof.
  split; [apply strip_prefix_spec | intros ->; apply strip_prefix_append].
Qed.

Lemma all_append (p : ascii -> bool) (a b : string) :
  Str.all p (a ++ b) = Str.all p a && Str.all p b.
Proof.
  induction a as [|x a IH]; simpl; [reflexivity|].
  now rewrite IH, andb_assoc.
Qed.

End StrFacts.

Module ReFacts.

Import StrFacts.

Lemma span_spec (p : ascii -> bool) (s a b : string) :
  Re.span p s = (a, b) -> s = a ++ b /\ Str.all p a = true.
Proof.
  revert a b; induction s as [|c s IH]; intros a b H; simpl in H.
  - inversion H; subst; now split.
  - destruct (p c) eqn:Hc.
    + destruct (Re.span p s) as [a' b'] eqn:Hs.
      inversion H; subst; clear H.
      destruct (IH _ _ eq_refl) as [-> Ha].
      split; [reflexivity | simpl; now rewrite Hc, Ha].
    + inversion H; subst; now split.
Qed.

(** A run of the class followed by a character outside of it is what [span]
    takes: nothing shorter and nothing longer. *)
Lemma span_append (p : ascii -> bool) (a : string) (c : ascii) (t : string) :
  Str.all p a = true -> p c = false ->
  Re.span p (a ++ String c t) = (a, String c t).
Proof.
  intros Ha Hc; induction a as [|x a IH]; simpl in *.
  - now rewrite Hc.
  - apply andb_prop in Ha as [Hx Ha].
    now rewrite Hx, (IH Ha).
Qed.

Lemma many1_spec (p : ascii -> bool) (s a b : string) :
  Re.many1 p s = Some (a, b) ->
  s = a ++ b /\ a <> EmptyString /\ Str.all p a = true.
Proof.
  unfold Re.many1; intros H.
  destruct (Re.span p s) as [a' b'] eqn:Hs.
  destruct a' as [|x a']; [discriminate|].
  inversion H; subst; clear H.
  destruct (span_spec _ _ _ _ Hs) as [-> Ha].
  repeat split; [discriminate | exact Ha].
Qed.

Lemma many1_append (p : ascii -> bool) (a : string) (c : ascii) (t : string) :
  a <> EmptyString -> Str.all p a = true -> p c = false ->
  Re.many1 p (a ++ String c t) = Some (a, String c t).
Proof.
  intros Hne Ha Hc; unfold Re.many1.
  rewrite (span_append _ _ _ _ Ha Hc).
  destruct a; [contradiction | reflexivity].
Qed.

Lemma exactly_spec (n : nat) (p : ascii -> bool) (s a b : string) :
  Re.exactly n p s = Some (a, b) ->
  s = a ++ b /\ String.length a = n /\ Str.all p a = true.
Proof.
  revert s a b; induction n as [|n IH]; intros s a b H; simpl in H.
  - inversion H; subst; now repeat split.
  - destruct s as [|c s]; [discriminate|].
    destruct (p c) eqn:Hc; [|discriminate].
    destruct (Re.exactly n p s) as [[a' b']|] eqn:Hs; [|discriminate].
    inversion H; subst; clear H.
    destruct (IH _ _ _ Hs) as (-> & Hl & Ha).
    repeat split; simpl; [now rewrite Hl | now rewrite Hc, Ha].
Qed.

Lemma exactly_append (n : nat) (p : ascii -> bool) (a b : string) :
  String.length a = n -> Str.all p a = true ->
  Re.exactly n p (a ++ b) = Some (a, b).
Proof.
  revert a; induction n as [|n IH]; intros a Hl Ha.
  - destruct a; [reflexivity | discriminate].
  - destruct a as [|x a]; [discriminate|]; simpl in *.
    apply andb_prop in Ha as [Hx Ha].
    rewrite Hx, (IH a); [reflexivity | lia | exact Ha].
Qed.

Lemma dash_not_word : Re.is_word "-" = false.
Proof. reflexivity. Qed.

Lemma dash_not_digit : Re.is_digit "-" = false.
Proof. reflexivity. Qed.

(** The greedy, deterministic [re_match] finds exactly the instances of the
    pattern at the start of the string. *)
Lemma re_match_sound (s : string) (g : Re.groups) (rest : string) :
  Re.re_match s = Some (g, rest) -> Re.matches_at_start s g rest.
Proof.
  unfold Re.re_match, Re.lit; intros H.
  repeat match type of H with
         | match ?e with _ => _ end = _ =>
             let E := fresh "E" in
             destruct e as [[? ?]|] eqn:E || destruct e eqn:E;
             [|discriminate]
         end.
  inversion H; subst; clear H.
  repeat match goal with
         | E : Str.strip_prefix _ _ = Some _ |- _ =>
             apply strip_prefix_spec in E
         | E : Re.many1 _ _ = Some _ |- _ =>
             apply many1_spec in E; destruct E as (? & ? & ?)
         | E : Re.exactly _ _ _ = Some _ |- _ =>
             apply exactly_spec in E; destruct E as (? & ? & ?)
         end.
  subst.
  split.
  - unfold Re.instance; cbn [Re.group1 Re.group2 Re.group3 Re.group4
                             Re.group5 Re.group6 Re.group7 Re.group8].
    now rewrite !append_assoc.
  - unfold Re.well_formed; cbn [Re.group1 Re.group2 Re.group3 Re.group4
                                Re.group5 Re.group6 Re.group7 Re.group8].
    tauto.
Qed.

Lemma re_match_complete (s : string) (g : Re.groups) (rest : string) :
  Re.matches_at_start s g rest -> Re.re_match s = Some (g, rest).
Proof.
  intros [-> W]; destruct g as [a1 a2 a3 a4 a5 a6 a7 a8].
  unfold Re.well_formed in W; cbn in W.
  destruct W as (N1 & W1 & N2 & W2 & [L3 W3] & [L4 W4] & [L5 W5]
                 & [L6 W6] & [L7 W7] & [L8 W8]).
  unfold Re.instance; cbn [Re.group1 Re.group2 Re.group3 Re.group4
                           Re.group5 Re.group6 Re.group7 Re.group8].
  rewrite !append_assoc.
  unfold Re.re_match, Re.lit.
  rewrite strip_prefix_append.
  repeat match goal with
         | |- context ["-" ++ ?t] => change ("-" ++ t) with (String "-" t)
         end.
  rewrite (many1_append _ _ _ _ N1 W1 dash_not_word).
  change (Str.strip_prefix "-" (String "-" ?t)) with (Some t).
  cbv beta iota.
  rewrite (many1_append _ _ _ _ N2 W2 dash_not_digit).
  change (Str.strip_prefix "-" (String "-" ?t)) with (Some t).
  cbv beta iota.
  rewrite (exactly_append _ _ _ _ L3 W3).
  rewrite strip_prefix_append.
  rewrite (exactly_append _ _ _ _ L4 W4).
  rewrite strip_prefix_append.
  rewrite (exactly_append _ _ _ _ L5 W5).
  change (Str.strip_prefix "-" (String "-" ?t)) with (Some t).
  cbv beta iota.
  rewrite (exactly_append _ _ _ _ L6 W6).
  rewrite strip_prefix_append.
  rewrite (exactly_append _ _ _ _ L7 W7).
  rewrite strip_prefix_append.
  rewrite (exactly_append _ _ _ _ L8 W8).
  reflexivity.
Qed.

Lemma re_match_iff (s : string) (g : Re.groups) (rest : string) :
  Re.re_match s = Some (g, rest) <-> Re.matches_at_start s g rest.
Proof.
  split; [apply re_match_sound | apply re_match_complete].
Qed.

End ReFacts.

(** ** The parser *)

Module ParseFacts.

Import StrFacts ReFacts.

Lemma digit_value_range (c : ascii) :
  Re.is_digit c = true -> 0 <= Str.digit_value c <= 9.
Proof.
  unfold Re.is_digit, Re.in_range, Str.digit_value; intros H.
  apply andb_prop in H as [H1 H2].
  apply N.leb_le in H1, H2; lia.
Qed.

Lemma int_from_nonneg (s : string) (acc : Z) :
  0 <= acc -> Str.all Re.is_digit s = true -> 0 <= Str.int_from acc s.
Proof.
  revert acc; induction s as [|c s IH]; intros acc Hacc Hs;
    cbn [Str.int_from Str.all] in *.
  - exact Hacc.
  - apply andb_prop in Hs as [Hc Hs].
    apply IH; [|exact Hs].
    pose proof (digit_value_range c Hc); lia.
Qed.

Lemma int_nonneg (s : string) :
  Str.all Re.is_digit s = true -> 0 <= Str.int s.
Proof. apply int_from_nonneg; lia. Qed.

Lemma parse_of_match (s : string) (g : Re.groups) (rest : string) :
  Re.matches_at_start s g rest ->
  parse_backup_filename s = result_of_groups g.
Proof.
  intros H; apply re_match_complete in H.
  unfold parse_backup_filename; now rewrite H.
Qed.

Lemma parse_no_match (s : string) :
  parse_backup_filename s = Ret None <->
  ~ exists g rest, Re.matches_at_start s g rest.
Proof.
  unfold parse_backup_filename.
  destruct (Re.re_match s) as [[g rest]|] eqn:E.
  - split.
    + intros H; exfalso.
      destruct (Datetime.new _ _ _ _ _ _); discriminate.
    + intros H; exfalso; apply H.
      exists g, rest; now apply re_match_sound.
  - split; [|reflexivity].
    intros _ (g & rest & H).
    apply re_match_complete in H; congruence.
Qed.

End ParseFacts.

Example parse_scenario_D :
  parse_backup_filename "vzdump-qemu-100-2025_01_01-01_00_00.vma.zst"
  = Ret (Some (mk_info "qemu" 100 (mk_datetime 2025 1 1 1 0 0))).
Proof. reflexivity. Qed.

Example parse_unrelated :
  parse_backup_filename "notes.vma.zst" = Ret None.
Proof. reflexivity. Qed.

Example parse_leap_day :
  parse_backup_filename "vzdump-lxc-7-2024_02_29-23_59_59.tar"
  = Ret (Some (mk_info "lxc" 7 (mk_datetime 2024 2 29 23 59 59))).
Proof. reflexivity. Qed.

Example parse_no_leap_day :
  parse_backup_filename "vzdump-lxc-7-2025_02_29-23_59_59.tar"
  = Raise ValueError.
Proof. reflexivity. Qed.

(** C2, as stated, fails: a name that matches the pattern and carries
    month 13 makes [parse_backup_filename] raise [ValueError]; it is not
    classified, and a run whose directory holds such a file ends with the
    exception, before anything is planned. *)
Lemma parse_month_13_raises :
  parse_backup_filename "vzdump-qemu-100-2025_13_01-01_00_00.vma.zst"
  = Raise ValueError
  /\ (exists g rest,
        Re.matches_at_start "vzdump-qemu-100-2025_13_01-01_00_00.vma.zst"
                            g rest)
  /\ fst (main (mk_args ["b"] 3 false)
            (mk_world
               [ (["b"], Dir 4096);
                 (["b"; "vzdump-qemu-100-2025_13_01-01_00_00.vma.zst"],
                  File 1000 false) ] []))
     = Raise ValueError.
Proof.
  split; [reflexivity | split; [|reflexivity]].
  exists (Re.mk_groups "qemu" "100" "2025" "13" "01" "01" "00" "00"),
         ".vma.zst".
  apply ReFacts.re_match_sound; reflexivity.
Qed.

(** C2, amended: every string falls in one of three cases.  It does
    not start with an instance of the pattern and the parser returns [None];
    or it does, the six numbers form a date and time that [datetime]
    accepts, and the parser returns the dictionary with that timestamp and
    a non-negative [vm_id]; or it does, [datetime] rejects the numbers, and
    the parser raises [ValueError]. *)
Theorem parse_backup_filename_outcomes (filename : string) :
  (parse_backup_filename filename = Ret None
   /\ ~ exists g rest, Re.matches_at_start filename g rest)
  \/ (exists g rest t,
        Re.matches_at_start filename g rest
        /\ parse_backup_filename filename
           = Ret (Some (mk_info (Re.group1 g) (Str.int (Re.group2 g)) t))
        /\ Datetime.valid_datetime t = true
        /\ 0 <= Str.int (Re.group2 g))
  \/ (exists g rest,
        Re.matches_at_start filename g rest
        /\ valid_groups g = false
        /\ parse_backup_filename filename = Raise ValueError).
Proof.
  destruct (Re.re_match filename) as [[g rest]|] eqn:E.
  - apply ReFacts.re_match_sound in E.
    pose proof (ParseFacts.parse_of_match _ _ _ E) as P.
    unfold result_of_groups, Datetime.new in P.
    destruct (Datetime.valid _ _ _ _ _ _) eqn:V.
    + right; left.
      eexists g, rest, _; repeat split; try exact P; try apply E.
      * exact V.
      * apply ParseFacts.int_nonneg, E.
    + right; right; exists g, rest; repeat split; try apply E; assumption.
  - left.
    assert (H : ~ exists g rest, Re.matches_at_start filename g rest).
    { intros (g & rest & H).
      apply ReFacts.re_match_complete in H; congruence. }
    split; [now apply ParseFacts.parse_no_match | exact H].
Qed.

(** C9: the pattern is anchored at the start of the name and nowhere else.
    A name parses (to a dictionary or to an error of [datetime]) exactly
    when it starts with an instance of the pattern; what follows the
    instance, such as an extension, has no influence on the result; the
    name of scenario D gives qemu, 100 and 2025-01-01 01:00:00; and a name
    in which an instance occurs further right, with none at the start, gives
    [None]. *)
Theorem parse_anchored_at_start :
  (forall s, parse_backup_filename s <> Ret None
             <-> exists g rest, Re.matches_at_start s g rest)
  /\ (forall g rest, Re.well_formed g ->
        parse_backup_filename (Re.instance g ++ rest)
        = result_of_groups g)
  /\ parse_backup_filename "vzdump-qemu-100-2025_01_01-01_00_00.vma.zst"
     = Ret (Some (mk_info "qemu" 100 (mk_datetime 2025 1 1 1 0 0)))
  /\ (forall pre s,
        (exists g rest, Re.matches_at_start s g rest) ->
        (~ exists g rest, Re.matches_at_start (pre ++ s) g rest) ->
        parse_backup_filename (pre ++ s) = Ret None)
  /\ parse_backup_filename "old-vzdump-qemu-100-2025_01_01-01_00_00.vma.zst"
     = Ret None.
Proof.
  repeat split.
  - intros H.
    destruct (Re.re_match s) as [[g rest]|] eqn:E.
    + exists g, rest; now apply ReFacts.re_match_sound.
    + exfalso; apply H; unfold parse_backup_filename; now rewrite E.
  - intros H E; now apply ParseFacts.parse_no_match in E.
  - intros g rest W; apply (ParseFacts.parse_of_match _ g rest); now split.
  - intros pre s _ H; now apply ParseFacts.parse_no_match.
Qed.

Lemma parse_anchored_at_start_witness :
  parse_backup_filename
    (Re.instance (Re.mk_groups "lxc" "101" "2024" "02" "29" "23" "59" "59")
     ++ ".tar.zst")
  = Ret (Some (mk_info "lxc" 101 (mk_datetime 2024 2 29 23 59 59))).
Proof.
  destruct parse_anchored_at_start as (_ & H & _).
  rewrite H; [reflexivity|].
  unfold Re.well_formed; simpl; repeat split; (reflexivity || discriminate).
Defined.

(** ** The order on [datetime] *)

Module DatetimeFacts.

Lemma lex_compare_eq (a b : list Z) :
  Datetime.lex_compare a b = Eq -> a = b.
Proof.
  revert b; induction a as [|x a IH]; intros [|y b] H; simpl in H;
    try discriminate; [reflexivity|].
  destruct (Z.compare_spec x y); try discriminate.
  subst; now rewrite (IH _ H).
Qed.

Lemma lex_compare_refl (a : list Z) : Datetime.lex_compare a a = Eq.
Proof.
  induction a as [|x a IH]; simpl; [reflexivity|].
  now rewrite Z.compare_refl.
Qed.

Lemma lex_compare_antisym (a b : list Z) :
  Datetime.lex_compare b a = CompOpp (Datetime.lex_compare a b).
Proof.
  revert b; induction a as [|x a IH]; intros [|y b]; simpl; try reflexivity.
  rewrite (Z.compare_antisym x y).
  destruct (x ?= y); simpl; [apply IH | reflexivity | reflexivity].
Qed.

Lemma lex_compare_lt_trans (a b c : list Z) :
  Datetime.lex_compare a b = Lt -> Datetime.lex_compare b c = Lt ->
  Datetime.lex_compare a c = Lt.
Proof.
  revert b c; induction a as [|x a IH]; intros [|y b] [|z c] H1 H2;
    simpl in *; try discriminate; try reflexivity.
  destruct (Z.compare_spec x y), (Z.compare_spec y z);
    try discriminate; subst.
  - rewrite Z.compare_refl; eapply IH; eassumption.
  - now apply Z.compare_lt_iff in H0 as ->.
  - now apply Z.compare_lt_iff in H as ->.
  - assert (x < z) as L by lia.
    now apply Z.compare_lt_iff in L as ->.
Qed.

Lemma fields_inj (t u : datetime) :
  Datetime.fields t = Datetime.fields u -> t = u.
Proof.
  destruct t, u; unfold Datetime.fields; simpl; intros H.
  now inversion H.
Qed.

Lemma compare_eq (t u : datetime) : Datetime.compare t u = Eq <-> t = u.
Proof.
  unfold Datetime.compare; split.
  - intros H; now apply fields_inj, lex_compare_eq.
  - intros ->; apply lex_compare_refl.
Qed.

Lemma eqb_eq (t u : datetime) : Datetime.eqb t u = true <-> t = u.
Proof.
  unfold Datetime.eqb; rewrite <- compare_eq.
  destruct (Datetime.compare t u); split; congruence.
Qed.

Lemma eqb_refl (t : datetime) : Datetime.eqb t t = true.
Proof. now apply eqb_eq. Qed.

Lemma ltb_leb (t u : datetime) :
  Datetime.ltb t u = true -> Datetime.leb t u = true.
Proof.
  unfold Datetime.ltb, Datetime.leb.
  destruct (Datetime.compare t u); congruence.
Qed.

Lemma ltb_neq (t u : datetime) : Datetime.ltb t u = true -> t <> u.
Proof.
  unfold Datetime.ltb; intros H ->.
  assert (E : Datetime.compare u u = Eq) by now apply compare_eq.
  rewrite E in H; discriminate.
Qed.

(** The order is total. *)
Lemma not_ltb_leb (t u : datetime) :
  Datetime.ltb t u = false -> Datetime.leb u t = true.
Proof.
  unfold Datetime.ltb, Datetime.leb, Datetime.compare.
  rewrite (lex_compare_antisym (Datetime.fields t) (Datetime.fields u)).
  destruct (Datetime.lex_compare _ _); simpl; congruence.
Qed.

Lemma leb_refl (t : datetime) : Datetime.leb t t = true.
Proof.
  unfold Datetime.leb.
  assert (E : Datetime.compare t t = Eq) by now apply compare_eq.
  now rewrite E.
Qed.

Lemma leb_trans (t u v : datetime) :
  Datetime.leb t u = true -> Datetime.leb u v = true ->
  Datetime.leb t v = true.
Proof.
  unfold Datetime.leb.
  destruct (Datetime.compare t u) eqn:E1; try discriminate;
    destruct (Datetime.compare u v) eqn:E2; try discriminate; intros _ _.
  - apply compare_eq in E1, E2; subst.
    assert (E : Datetime.compare v v = Eq) by now apply compare_eq.
    now rewrite E.
  - apply compare_eq in E1; subst; now rewrite E2.
  - apply compare_eq in E2; subst; now rewrite E1.
  - unfold Datetime.compare in *.
    now rewrite (lex_compare_lt_trans _ _ _ E1 E2).
Qed.

Lemma leb_antisym (t u : datetime) :
  Datetime.leb t u = true -> Datetime.leb u t = true -> t = u.
Proof.
  unfold Datetime.leb, Datetime.compare.
  rewrite (lex_compare_antisym (Datetime.fields t) (Datetime.fields u)).
  destruct (Datetime.lex_compare _ _) eqn:E; simpl; try discriminate.
  intros _ _; now apply fields_inj, lex_compare_eq.
Qed.

End DatetimeFacts.

(** ** The sort *)

Section SortFacts.

Context {A : Type}.
Variable key : A -> datetime.

Lemma insert_reverse_perm (x : A) (l : list A) :
  Permutation (insert_reverse key x l) (x :: l).
Proof.
  induction l as [|y l IH]; simpl; [reflexivity|].
  destruct (Datetime.ltb (key x) (key y)); [|reflexivity].
  rewrite IH; apply perm_swap.
Qed.

Lemma sort_reverse_perm (l : list A) : Permutation (sort_reverse key l) l.
Proof.
  induction l as [|x l IH]; simpl; [reflexivity|].
  rewrite insert_reverse_perm; now apply perm_skip.
Qed.

Lemma sort_reverse_length (l : list A) :
  List.length (sort_reverse key l) = List.length l.
Proof. apply Permutation_length, sort_reverse_perm. Qed.

Lemma sort_reverse_In (x : A) (l : list A) :
  In x (sort_reverse key l) <-> In x l.
Proof.
  split; apply Permutation_in;
    [apply sort_reverse_perm | apply Permutation_sym, sort_reverse_perm].
Qed.

Lemma insert_reverse_descending (x : A) (l : list A) :
  descending key l -> descending key (insert_reverse key x l).
Proof.
  unfold descending.
  induction l as [|y l IH]; intros S; simpl.
  - repeat constructor.
  - inversion S as [|? ? S' F]; subst.
    destruct (Datetime.ltb (key x) (key y)) eqn:L.
    + constructor; [now apply IH|].
      apply (Permutation_Forall (Permutation_sym (insert_reverse_perm x l))).
      constructor; [now apply DatetimeFacts.ltb_leb | exact F].
    + apply DatetimeFacts.not_ltb_leb in L.
      constructor; [exact S|].
      constructor; [exact L|].
      eapply Forall_impl; [|exact F].
      intros z Hz; cbv beta in *.
      eapply DatetimeFacts.leb_trans; eassumption.
Qed.

Lemma sort_reverse_descending (l : list A) :
  descending key (sort_reverse key l).
Proof.
  induction l as [|x l IH]; simpl.
  - constructor.
  - now apply insert_reverse_descending.
Qed.

(** Inserting never moves an element across one with the same key. *)
Lemma with_key_insert (t : datetime) (x : A) (l : list A) :
  with_key key t (insert_reverse key x l) = with_key key t (x :: l).
Proof.
  unfold with_key.
  induction l as [|y l IH]; simpl; [reflexivity|].
  destruct (Datetime.ltb (key x) (key y)) eqn:L; [|reflexivity].
  simpl; rewrite IH; simpl.
  destruct (Datetime.eqb (key x) t) eqn:Ex, (Datetime.eqb (key y) t) eqn:Ey;
    try reflexivity.
  apply DatetimeFacts.eqb_eq in Ex, Ey.
  apply DatetimeFacts.ltb_neq in L; congruence.
Qed.

Lemma sort_reverse_stable (t : datetime) (l : list A) :
  with_key key t (sort_reverse key l) = with_key key t l.
Proof.
  induction l as [|x l IH]; simpl; [reflexivity|].
  rewrite with_key_insert.
  unfold with_key in *; simpl; now rewrite IH.
Qed.

Lemma with_key_In (t : datetime) (x : A) (l : list A) :
  In x (with_key key t l) <-> In x l /\ key x = t.
Proof.
  unfold with_key; rewrite filter_In.
  now rewrite DatetimeFacts.eqb_eq.
Qed.

(** Two descending lists with the same elements for every key, in the same
    order, are equal. *)
Lemma descending_stable_eq (l1 l2 : list A) :
  descending key l1 -> descending key l2 ->
  (forall t, with_key key t l1 = with_key key t l2) ->
  l1 = l2.
Proof.
  unfold descending.
  revert l2; induction l1 as [|a l1 IH]; intros l2 S1 S2 H.
  - destruct l2 as [|b l2]; [reflexivity|].
    specialize (H (key b)); unfold with_key in H; simpl in H.
    rewrite DatetimeFacts.eqb_refl in H; discriminate.
  - destruct l2 as [|b l2].
    + specialize (H (key a)); unfold with_key in H; simpl in H.
      rewrite DatetimeFacts.eqb_refl in H; discriminate.
    + inversion S1 as [|? ? S1' F1]; subst.
      inversion S2 as [|? ? S2' F2]; subst.
      assert (Ha : In a (b :: l2)).
      { apply (with_key_In (key a) a); rewrite <- H.
        apply with_key_In; split; [now left | reflexivity]. }
      assert (Hb : In b (a :: l1)).
      { apply (with_key_In (key b) b); rewrite H.
        apply with_key_In; split; [now left | reflexivity]. }
      assert (K : key a = key b).
      { apply DatetimeFacts.leb_antisym.
        - destruct Ha as [<-|Ha]; [apply DatetimeFacts.leb_refl|].
          rewrite Forall_forall in F2; now apply F2.
        - destruct Hb as [<-|Hb]; [apply DatetimeFacts.leb_refl|].
          rewrite Forall_forall in F1; now apply F1. }
      assert (E : a = b).
      { pose proof (H (key a)) as Hk; unfold with_key in Hk; simpl in Hk.
        rewrite <- K, DatetimeFacts.eqb_refl in Hk.
        now inversion Hk. }
      subst b; f_equal.
      apply IH; [exact S1' | exact S2' |].
      intros t; specialize (H t); unfold with_key in *; simpl in H.
      destruct (Datetime.eqb (key a) t); [now inversion H | exact H].
Qed.

(** The list that a stable descending sort returns is unique: whatever the
    algorithm behind [list.sort], its result is [sort_reverse]. *)
Lemma sort_reverse_unique (l l' : list A) :
  descending key l' ->
  (forall t, with_key key t l' = with_key key t l) ->
  l' = sort_reverse key l.
Proof.
  intros S H; apply descending_stable_eq.
  - exact S.
  - apply sort_reverse_descending.
  - intros t; now rewrite H, sort_reverse_stable.
Qed.

Lemma descending_app (l1 l2 : list A) :
  descending key (l1 ++ l2) ->
  forall r o, In r l1 -> In o l2 -> Datetime.leb (key o) (key r) = true.
Proof.
  unfold descending.
  induction l1 as [|a l1 IH]; intros S r o Hr Ho; [contradiction|].
  simpl in S; inversion S as [|? ? S' F]; subst.
  destruct Hr as [<-|Hr].
  - rewrite Forall_forall in F; apply F, in_or_app; now right.
  - now apply IH.
Qed.

End SortFacts.

(** ** The planner *)

Module PlanFacts.

Lemma slice_from_nonneg {A : Type} (l : list A) (start : Z) :
  0 <= start -> slice_from l start = skipn (Z.to_nat start) l.
Proof.
  intros H; unfold slice_from.
  destruct (start <? 0) eqn:E; [apply Z.ltb_lt in E; lia|].
  destruct (Z_le_gt_dec start (Z.of_nat (List.length l))) as [L|G].
  - now rewrite Z.min_l.
  - rewrite Z.min_r, Nat2Z.id, skipn_all by lia.
    symmetry; apply skipn_all2; lia.
Qed.

Lemma slice_from_neg {A : Type} (l : list A) (start : Z) :
  start < 0 ->
  slice_from l start = skipn (List.length l - Z.to_nat (- start)) l.
Proof.
  intros H; unfold slice_from.
  apply Z.ltb_lt in H as E; rewrite E.
  f_equal; lia.
Qed.

(** For a count that is not negative the slice drops the first [keep]
    elements of the sorted group. *)
Lemma select_old_nonneg (keep : Z) (backups : list backup) :
  0 <= keep ->
  select_old keep backups
  = skipn (Z.to_nat keep) (sort_reverse backup_key backups).
Proof.
  intros H; unfold select_old, len.
  destruct (Z.gtb_spec
              (Z.of_nat (List.length (sort_reverse backup_key backups)))
              keep) as [G|L].
  - now apply slice_from_nonneg.
  - symmetry; apply skipn_all2; lia.
Qed.

(** For a negative count the test of line 137 always holds and the slice
    takes the last [- keep] elements, or all when there are fewer. *)
Lemma select_old_neg (keep : Z) (backups : list backup) :
  keep < 0 ->
  select_old keep backups
  = skipn (List.length backups - Z.to_nat (- keep))
          (sort_reverse backup_key backups).
Proof.
  intros H; unfold select_old, len.
  destruct (Z.gtb_spec
              (Z.of_nat (List.length (sort_reverse backup_key backups)))
              keep) as [G|L]; [|lia].
  rewrite slice_from_neg by exact H.
  now rewrite sort_reverse_length.
Qed.

Lemma retained_nonneg (keep : Z) (backups : list backup) :
  0 <= keep ->
  retained keep backups
  = firstn (Z.to_nat keep) (sort_reverse backup_key backups).
Proof.
  intros H; unfold retained.
  rewrite (select_old_nonneg _ _ H), length_skipn, sort_reverse_length.
  destruct (Nat.le_gt_cases (Z.to_nat keep) (List.length backups)) as [L|G].
  - f_equal; lia.
  - rewrite !firstn_all2; try reflexivity;
      rewrite sort_reverse_length; lia.
Qed.

Lemma plan_from (keep : Z) (d : backups_dict) (acc : list backup) :
  fold_left
    (fun old_backups group => (old_backups ++ select_old keep (snd group))%list)
    d acc
  = (acc ++ flat_map (fun group => select_old keep (snd group)) d)%list.
Proof.
  revert acc; induction d as [|g d IH]; intros acc; simpl.
  - now rewrite app_nil_r.
  - now rewrite IH, app_assoc.
Qed.

(** [old_backups] is the concatenation of what the groups contribute, in
    the order of the dictionary. *)
Lemma plan_flat_map (keep : Z) (d : backups_dict) :
  plan keep d = flat_map (fun group => select_old keep (snd group)) d.
Proof. unfold plan; now rewrite plan_from. Qed.

End PlanFacts.

(** ** The order of the sort, in terms of the calendar *)

Module OrderFacts.

Ltac by_fields :=
  repeat match goal with
         | |- context [?a ?= ?b] => destruct (Z.compare_spec a b)
         end;
  let G := fresh "G" in
  split; intros G; try discriminate; try reflexivity; try lia;
  try (exfalso; lia).

(** [<] on [datetime] is the order of time. *)
Lemma ltb_earlier (t u : datetime) :
  Datetime.ltb t u = true <-> earlier t u.
Proof.
  destruct t, u.
  unfold Datetime.ltb, Datetime.compare, Datetime.fields, earlier.
  cbn [year month day hour minute second Datetime.lex_compare].
  by_fields.
Qed.

(** [t <= u] says that [u] is not before [t]. *)
Lemma leb_not_earlier (t u : datetime) :
  Datetime.leb t u = true <-> ~ earlier u t.
Proof.
  destruct t, u.
  unfold Datetime.leb, Datetime.compare, Datetime.fields, earlier.
  cbn [year month day hour minute second Datetime.lex_compare].
  by_fields.
Qed.

Lemma StronglySorted_impl {X : Type} (R S : X -> X -> Prop) (l : list X) :
  (forall a b, R a b -> S a b) -> StronglySorted R l -> StronglySorted S l.
Proof.
  intros I; induction 1 as [|x l H IH F]; constructor; [exact IH|].
  eapply Forall_impl; [|exact F]; intros b; apply I.
Qed.

(** Descending by the key of the sort is: most recent first. *)
Lemma descending_newest_first (l : list backup) :
  descending backup_key l
  <-> StronglySorted
        (fun a b => ~ earlier (timestamp (info a)) (timestamp (info b))) l.
Proof.
  unfold descending, backup_key; split; apply StronglySorted_impl;
    intros a b; apply leb_not_earlier.
Qed.

(** The backups with the key [t] are those taken at [t]. *)
Lemma with_key_taken_at (t : datetime) (l : list backup) :
  with_key backup_key t l
  = filter (fun b => if datetime_eq_dec (timestamp (info b)) t
                     then true else false) l.
Proof.
  unfold with_key, backup_key; apply filter_ext; intros b.
  destruct (datetime_eq_dec (timestamp (info b)) t) as [E|N].
  - now apply DatetimeFacts.eqb_eq.
  - destruct (Datetime.eqb (timestamp (info b)) t) eqn:Q; [|reflexivity].
    now apply DatetimeFacts.eqb_eq in Q.
Qed.

End OrderFacts.

Example scenario_A :
  select_old 3 Sample.five = [Sample.at_day 2; Sample.at_day 1]
  /\ retained 3 Sample.five
     = [Sample.at_day 5; Sample.at_day 4; Sample.at_day 3].
Proof. split; reflexivity. Qed.

(** C1: for a retention count [keep >= 0] and a group of [n] backups, the
    planner sorts the group by timestamp, most recent first (no backup of
    the sorted list is earlier in time than one that follows it), and takes
    the sorted list from index [keep] on.  What it selects are
    [max 0 (n - keep)] backups and what it keeps are the first
    [min n keep]; together they are the group; no backup that is kept is
    earlier in time than one that is selected; a group with [n <= keep]
    contributes nothing and [keep = 0] selects the whole group.
    [old_backups] is the concatenation of these selections. *)
Theorem plan_keeps_most_recent (keep : Z) (backups : list backup) :
  0 <= keep ->
  let sorted_group := sort_reverse backup_key backups in
  let old := select_old keep backups in
  let kept := retained keep backups in
  StronglySorted
    (fun a b => ~ earlier (timestamp (info a)) (timestamp (info b)))
    sorted_group
  /\ Permutation sorted_group backups
  /\ sorted_group = (kept ++ old)%list
  /\ old = skipn (Z.to_nat keep) sorted_group
  /\ kept = firstn (Z.to_nat keep) sorted_group
  /\ len old = Z.max 0 (len backups - keep)
  /\ len kept = Z.min (len backups) keep
  /\ (forall r o, In r kept -> In o old ->
        ~ earlier (timestamp (info r)) (timestamp (info o)))
  /\ (len backups <= keep -> old = [])
  /\ (keep = 0 -> Permutation old backups)
  /\ (forall d, plan keep d
                = flat_map (fun group => select_old keep (snd group)) d).
Proof.
  intros H sorted_group old kept.
  assert (Eo : old = skipn (Z.to_nat keep) sorted_group)
    by now apply PlanFacts.select_old_nonneg.
  assert (Ek : kept = firstn (Z.to_nat keep) sorted_group)
    by now apply PlanFacts.retained_nonneg.
  assert (Es : sorted_group = (kept ++ old)%list)
    by (rewrite Eo, Ek; symmetry; apply firstn_skipn).
  assert (D : descending backup_key sorted_group)
    by apply sort_reverse_descending.
  assert (Ln : List.length sorted_group = List.length backups)
    by apply sort_reverse_length.
  split; [now apply OrderFacts.descending_newest_first|].
  repeat split; try assumption.
  - apply sort_reverse_perm.
  - unfold len; rewrite Eo, length_skipn, Ln; lia.
  - unfold len; rewrite Ek, length_firstn, Ln; lia.
  - intros r o Ir Io; apply OrderFacts.leb_not_earlier.
    rewrite Es in D; exact (descending_app backup_key _ _ D r o Ir Io).
  - unfold len; intros L; rewrite Eo; apply skipn_all2; lia.
  - intros ->; rewrite Eo; simpl; apply sort_reverse_perm.
  - apply PlanFacts.plan_flat_map.
Qed.

(** Scenario A: of five archives scanned in the order of the days 3, 1, 5,
    2, 4 the days 5, 4, 3 are kept and the days 2 and 1 selected. *)
Lemma plan_keeps_most_recent_witness :
  0 <= 3
  /\ select_old 3 Sample.five = [Sample.at_day 2; Sample.at_day 1]
  /\ retained 3 Sample.five
     = [Sample.at_day 5; Sample.at_day 4; Sample.at_day 3]
  /\ len (select_old 3 Sample.five) = Z.max 0 (len Sample.five - 3)
  /\ (forall r o,
        In r (retained 3 Sample.five) -> In o (select_old 3 Sample.five) ->
        ~ earlier (timestamp (info r)) (timestamp (info o))).
Proof.
  split; [lia|].
  pose proof (plan_keeps_most_recent 3 Sample.five ltac:(lia)) as H.
  cbv zeta in H.
  destruct H as (_ & _ & _ & Eo & Ek & Lo & _ & X & _).
  split; [rewrite Eo; reflexivity|].
  split; [rewrite Ek; reflexivity|].
  split; [exact Lo | exact X].
Defined.

(** ** Grouping *)

Module GroupFacts.

Lemma dict_get_append (d : backups_dict) (k v : Z) (b : backup) :
  dict_get (dict_append d k b) v
  = if k =? v then (dict_get d v ++ [b])%list else dict_get d v.
Proof.
  induction d as [|[k' l] d IH]; simpl.
  - destruct (k =? v); reflexivity.
  - destruct (Z.eqb_spec k' k) as [->|N]; simpl.
    + destruct (Z.eqb_spec k v); reflexivity.
    + destruct (Z.eqb_spec k' v) as [->|N'].
      * destruct (Z.eqb_spec k v); [congruence | reflexivity].
      * exact IH.
Qed.

Lemma dict_append_keys (d : backups_dict) (k : Z) (b : backup) :
  map fst (dict_append d k b)
  = if in_dec Z.eq_dec k (map fst d) then map fst d
    else (map fst d ++ [k])%list.
Proof.
  induction d as [|[k' l] d IH]; simpl; [reflexivity|].
  destruct (Z.eqb_spec k' k) as [->|N]; simpl.
  - destruct (Z.eq_dec k k); [reflexivity | contradiction].
  - rewrite IH.
    destruct (Z.eq_dec k' k); [contradiction|].
    destruct (in_dec Z.eq_dec k (map fst d)); reflexivity.
Qed.

Lemma dict_append_NoDup (d : backups_dict) (k : Z) (b : backup) :
  NoDup (map fst d) -> NoDup (map fst (dict_append d k b)).
Proof.
  intros H; rewrite dict_append_keys.
  destruct (in_dec Z.eq_dec k (map fst d)) as [I|I]; [exact H|].
  apply NoDup_app; [exact H | repeat constructor; intros [] | ].
  intros x Hx [<-|[]]; contradiction.
Qed.

Lemma dict_get_In (d : backups_dict) (v : Z) (l : list backup) :
  NoDup (map fst d) -> In (v, l) d -> dict_get d v = l.
Proof.
  induction d as [|[k' l'] d IH]; intros N I; [contradiction|].
  simpl in *; inversion N as [|? ? Hk N']; subst.
  destruct I as [E|I].
  - inversion E; subst; now rewrite Z.eqb_refl.
  - destruct (Z.eqb_spec k' v) as [->|_]; [|now apply IH].
    exfalso; apply Hk; change v with (fst (v, l)); now apply in_map.
Qed.

Lemma group_backups_pure (backup_files : list Path) (d : backups_dict)
      (w : world) :
  for_each backup_files (fun file d => lift (group_step file d)) d w
  = (group_from backup_files d, w).
Proof.
  revert d; induction backup_files as [|f r IH]; intros d; simpl.
  - reflexivity.
  - unfold bind, lift at 1.
    destruct (group_step f d) as [d'|e]; [apply IH | reflexivity].
Qed.

Lemma group_from_get (backup_files : list Path) (d0 d : backups_dict) :
  group_from backup_files d0 = Ret d ->
  forall v,
    dict_get d v
    = (dict_get d0 v ++ of_vm v (parsed_backups backup_files))%list.
Proof.
  revert d0; induction backup_files as [|f r IH]; intros d0 H v; simpl in *.
  - inversion H; subst; now rewrite app_nil_r.
  - unfold group_step in H.
    destruct (parse_backup_filename (name f)) as [[i|]|e]; try discriminate.
    + rewrite (IH _ H v), dict_get_append.
      unfold of_vm; simpl.
      destruct (vm_id i =? v); [now rewrite <- app_assoc | reflexivity].
    + apply (IH _ H v).
Qed.

Lemma group_from_NoDup (backup_files : list Path) (d0 d : backups_dict) :
  group_from backup_files d0 = Ret d ->
  NoDup (map fst d0) -> NoDup (map fst d).
Proof.
  revert d0; induction backup_files as [|f r IH]; intros d0 H N; simpl in *.
  - now inversion H; subst.
  - unfold group_step in H.
    destruct (parse_backup_filename (name f)) as [[i|]|e]; try discriminate.
    + apply (IH _ H); now apply dict_append_NoDup.
    + now apply (IH _ H).
Qed.

(** Every group of [backups_by_vm] holds the backups of its VM in scan
    order. *)
Lemma group_is_scan_order (backup_files : list Path) (d : backups_dict) :
  group_from backup_files [] = Ret d ->
  forall v l, In (v, l) d -> l = of_vm v (parsed_backups backup_files).
Proof.
  intros H v l I.
  rewrite <- (dict_get_In d v l);
    [|now apply (group_from_NoDup _ _ _ H); constructor | exact I].
  now rewrite (group_from_get _ _ _ H v).
Qed.

Lemma parsed_backups_file (backup_files : list Path) (b : backup) :
  In b (parsed_backups backup_files) ->
  In (file b) backup_files
  /\ parse_backup_filename (name (file b)) = Ret (Some (info b)).
Proof.
  induction backup_files as [|f r IH]; simpl; [contradiction|].
  destruct (parse_backup_filename (name f)) as [[i|]|e] eqn:P.
  - intros [<-|I]; [now split; [left|] |].
    destruct (IH I); split; [now right | assumption].
  - intros I; destruct (IH I); split; [now right | assumption].
  - intros I; destruct (IH I); split; [now right | assumption].
Qed.

End GroupFacts.

(** C10: the sort by timestamp is stable.  [backups_by_vm] depends on the
    files of the scan only and each of its groups holds the backups of its
    VM in scan order.  The sorted group has the most recent backup first,
    and the backups taken at any one time stand in it in the order in
    which the scan met them.  No other list that is ordered by time has
    this property, so the list, and with it the selection for any [keep],
    is determined by the scan. *)
Theorem sort_is_stable (backup_files : list Path) :
  exists r : result backups_dict,
    (forall w, group_backups backup_files w = (r, w))
    /\ forall d, r = Ret d ->
       forall v l, In (v, l) d ->
         let sorted_group := sort_reverse backup_key l in
         let taken_at := fun (t : datetime) (g : list backup) =>
           filter (fun b => if datetime_eq_dec (timestamp (info b)) t
                            then true else false) g in
         let newest_first :=
           StronglySorted
             (fun a b => ~ earlier (timestamp (info a)) (timestamp (info b)))
         in
         l = of_vm v (parsed_backups backup_files)
         /\ newest_first sorted_group
         /\ Permutation sorted_group l
         /\ (forall t, taken_at t sorted_group = taken_at t l)
         /\ (forall l',
               newest_first l' ->
               (forall t, taken_at t l' = taken_at t l) ->
               l' = sorted_group
               /\ forall keep,
                    select_old keep l
                    = (if len l' >? keep then slice_from l' keep else [])).
Proof.
  exists (group_from backup_files []); split.
  - intros w; apply GroupFacts.group_backups_pure.
  - intros d H v l I sorted_group taken_at newest_first.
    split; [now apply (GroupFacts.group_is_scan_order _ _ H)|].
    split; [apply OrderFacts.descending_newest_first,
              sort_reverse_descending|].
    split; [apply sort_reverse_perm|].
    split.
    + intros t; unfold taken_at.
      rewrite <- !OrderFacts.with_key_taken_at; apply sort_reverse_stable.
    + intros l' D S.
      assert (E : l' = sorted_group).
      { apply sort_reverse_unique;
          [now apply OrderFacts.descending_newest_first|].
        intros t; rewrite !OrderFacts.with_key_taken_at; apply S. }
      split; [exact E|].
      intros keep; unfold select_old; fold sorted_group; now rewrite E.
Qed.

(** A tie: of three files of VM 100, scanned in this order, the first and
    the third were taken at the same second and the second a day later.
    In the sorted group the first still stands before the third. *)
Lemma sort_is_stable_witness :
  let first :=
    mk_backup Sample.older
      (mk_info "qemu" 100 (mk_datetime 2025 1 1 1 0 0)) in
  let second :=
    mk_backup Sample.newer
      (mk_info "qemu" 100 (mk_datetime 2025 1 2 1 0 0)) in
  let third :=
    mk_backup ["b"; "vzdump-lxc-100-2025_01_01-01_00_00.vma.zst"]
      (mk_info "lxc" 100 (mk_datetime 2025 1 1 1 0 0)) in
  [first; second; third]
  = of_vm 100 (parsed_backups [file first; file second; file third])
  /\ filter (fun b => if datetime_eq_dec (timestamp (info b))
                                         (mk_datetime 2025 1 1 1 0 0)
                      then true else false)
            (sort_reverse backup_key [first; second; third])
     = [first; third]
  /\ sort_reverse backup_key [first; second; third]
     = [second; first; third].
Proof.
  intros first second third.
  destruct (sort_is_stable [file first; file second; file third])
    as (r & Hr & Hd).
  assert (E : r = Ret [(100, [first; second; third])]).
  { specialize (Hr (mk_world [] [])); vm_compute in Hr; now inversion Hr. }
  destruct (Hd _ E 100 [first; second; third] (or_introl eq_refl))
    as (H1 & H2 & H3 & H4 & H5).
  split; [exact H1|].
  split; [rewrite (H4 (mk_datetime 2025 1 1 1 0 0)); reflexivity|].
  destruct (H5 [second; first; third]) as [E5 _].
  - repeat constructor; unfold earlier; simpl; lia.
  - intros t; subst first second third; cbn [filter timestamp info].
    destruct (datetime_eq_dec (mk_datetime 2025 1 1 1 0 0) t) as [Q1|N1];
      destruct (datetime_eq_dec (mk_datetime 2025 1 2 1 0 0) t) as [Q2|N2];
      cbn [filter]; try reflexivity.
    rewrite <- Q1 in Q2; discriminate.
  - symmetry; exact E5.
Defined.

(** ** The file system *)

Module FsFacts.

Lemma path_eqb_eq (p q : Path) : path_eqb p q = true <-> p = q.
Proof.
  unfold path_eqb; destruct (list_eq_dec string_dec p q); split; congruence.
Qed.

Lemma path_eqb_refl (p : Path) : path_eqb p p = true.
Proof. now apply path_eqb_eq. Qed.

Lemma path_eqb_neq (p q : Path) : path_eqb p q = false <-> p <> q.
Proof.
  unfold path_eqb; destruct (list_eq_dec string_dec p q); split; congruence.
Qed.

Lemma lookup_remove (p q : Path) (f : filesystem) :
  lookup q (remove p f) = if path_eqb p q then None else lookup q f.
Proof.
  induction f as [|[r n] f IH]; simpl.
  - now destruct (path_eqb p q).
  - destruct (path_eqb p r) eqn:Epr; simpl.
    + rewrite IH; destruct (path_eqb p q) eqn:Epq; [reflexivity|].
      apply path_eqb_eq in Epr; subst r.
      assert (E : path_eqb q p = false).
      { apply path_eqb_neq; apply path_eqb_neq in Epq; congruence. }
      now rewrite E.
    + rewrite IH; destruct (path_eqb q r) eqn:Eqr; [|reflexivity].
      apply path_eqb_eq in Eqr; subst r; now rewrite Epr.
Qed.

Lemma remove_missing (p : Path) (f : filesystem) :
  lookup p f = None -> remove p f = f.
Proof.
  induction f as [|[r n] f IH]; simpl; [reflexivity|].
  destruct (path_eqb p r); [discriminate|].
  intros H; simpl; now rewrite (IH H).
Qed.

Lemma lookup_remove_all_mono (ps : list Path) (q : Path) (f : filesystem)
      (n : node) :
  lookup q (remove_all ps f) = Some n -> lookup q f = Some n.
Proof.
  revert f; induction ps as [|p ps IH]; intros f H; [exact H|].
  apply IH in H; rewrite lookup_remove in H.
  destruct (path_eqb p q); [discriminate | exact H].
Qed.

Lemma lookup_remove_all_other (ps : list Path) (q : Path) (f : filesystem) :
  ~ In q ps -> lookup q (remove_all ps f) = lookup q f.
Proof.
  revert f; induction ps as [|p ps IH]; intros f H; [reflexivity|].
  simpl; rewrite IH by (intros I; apply H; now right).
  rewrite lookup_remove.
  destruct (path_eqb p q) eqn:E; [|reflexivity].
  apply path_eqb_eq in E; exfalso; apply H; now left.
Qed.

Lemma lookup_remove_all_in (ps : list Path) (q : Path) (f : filesystem) :
  In q ps -> lookup q (remove_all ps f) = None.
Proof.
  revert f; induction ps as [|p ps IH]; intros f H; [contradiction|].
  simpl.
  destruct (in_dec (list_eq_dec string_dec) q ps) as [I|I].
  - now apply IH.
  - rewrite lookup_remove_all_other by exact I.
    destruct H as [->|H]; [|contradiction].
    now rewrite lookup_remove, path_eqb_refl.
Qed.

Lemma remove_all_app (ps qs : list Path) (f : filesystem) :
  remove_all (ps ++ qs) f = remove_all qs (remove_all ps f).
Proof. apply fold_left_app. Qed.

Lemma deleted_refl (allowed : Path -> Prop) (f : filesystem) :
  deleted allowed f f.
Proof. exists []; split; [reflexivity | constructor]. Qed.

Lemma deleted_trans (allowed : Path -> Prop) (f g h : filesystem) :
  deleted allowed f g -> deleted allowed g h -> deleted allowed f h.
Proof.
  intros (ps & -> & F1) (qs & -> & F2).
  exists (ps ++ qs)%list; split; [now rewrite remove_all_app|].
  apply Forall_app; split; [exact F1|].
  eapply Forall_impl; [|exact F2].
  intros p [Ha Hl]; split; [exact Ha|].
  destruct (lookup p (remove_all ps f)) as [n|] eqn:E; [|contradiction].
  now rewrite (lookup_remove_all_mono _ _ _ _ E).
Qed.

Lemma deleted_one (allowed : Path -> Prop) (p : Path) (f : filesystem) :
  allowed p -> lookup p f <> None -> deleted allowed f (remove p f).
Proof.
  intros Ha Hl; exists [p]; split; [reflexivity|].
  constructor; [now split | constructor].
Qed.

Lemma deleted_weaken (allowed allowed' : Path -> Prop) (f g : filesystem) :
  (forall p, allowed p -> allowed' p) ->
  deleted allowed f g -> deleted allowed' f g.
Proof.
  intros W (ps & -> & F); exists ps; split; [reflexivity|].
  eapply Forall_impl; [|exact F].
  intros p [Ha Hl]; split; [now apply W | exact Hl].
Qed.

(** Where nothing may be deleted, nothing changes. *)
Lemma deleted_none (allowed : Path -> Prop) (f g : filesystem) :
  (forall p, ~ allowed p) -> deleted allowed f g -> g = f.
Proof.
  intros N (ps & -> & F).
  destruct ps as [|p ps]; [reflexivity|].
  inversion F as [|? ? [Ha _] _]; subst; now apply N in Ha.
Qed.

(** An entry after a deletion is an entry before it, unchanged. *)
Lemma deleted_lookup (allowed : Path -> Prop) (f g : filesystem) (p : Path)
      (n : node) :
  deleted allowed f g -> lookup p g = Some n -> lookup p f = Some n.
Proof.
  intros (ps & -> & _); apply lookup_remove_all_mono.
Qed.

(** An entry that is gone was at an allowed place. *)
Lemma deleted_gone (allowed : Path -> Prop) (f g : filesystem) (p : Path) :
  deleted allowed f g -> lookup p f <> None -> lookup p g = None ->
  allowed p.
Proof.
  intros (ps & -> & F) Hf Hg.
  destruct (in_dec (list_eq_dec string_dec) p ps) as [I|I].
  - rewrite Forall_forall in F; now apply F.
  - rewrite lookup_remove_all_other in Hg by exact I; contradiction.
Qed.

Section Closure.

Variable R : filesystem -> filesystem -> Prop.
Hypothesis R_refl : forall f, R f f.
Hypothesis R_trans : forall f g h, R f g -> R g h -> R f h.

Lemma fs_rel_ret {A : Type} (a : A) : fs_rel R (ret a).
Proof. intros w; apply R_refl. Qed.

Lemma fs_rel_lift {A : Type} (r : result A) : fs_rel R (lift r).
Proof. intros w; apply R_refl. Qed.

Lemma fs_rel_print (e : event) : fs_rel R (print e).
Proof. intros w; apply R_refl. Qed.

Lemma fs_rel_exists (p : Path) : fs_rel R (exists_ p).
Proof. intros w; apply R_refl. Qed.

Lemma fs_rel_stat_size (p : Path) : fs_rel R (stat_size p).
Proof.
  intros w; unfold stat_size; destruct (lookup p (fs w)); apply R_refl.
Qed.

Lemma fs_rel_bind {A B : Type} (m : M A) (k : A -> M B) :
  fs_rel R m -> (forall a, fs_rel R (k a)) -> fs_rel R (bind m k).
Proof.
  intros Hm Hk w; unfold bind.
  specialize (Hm w).
  destruct (m w) as [[a|e] w']; simpl in *; [|exact Hm].
  eapply R_trans; [exact Hm | apply Hk].
Qed.

Lemma fs_rel_for_each {X S : Type} (l : list X) (body : X -> S -> M S) :
  (forall x s, In x l -> fs_rel R (body x s)) ->
  forall s, fs_rel R (for_each l body s).
Proof.
  induction l as [|x l IH]; intros H s; simpl.
  - apply fs_rel_ret.
  - apply fs_rel_bind; [apply H; now left|].
    intros s'; apply IH; intros y t I; apply H; now right.
Qed.

End Closure.

Lemma fs_rel_unlink (allowed : Path -> Prop) (p : Path) :
  allowed p -> fs_rel (deleted allowed) (unlink p).
Proof.
  intros Ha w; unfold unlink.
  destruct (lookup p (fs w)) as [[size [|]|size]|] eqn:E; simpl;
    try apply deleted_refl.
  apply deleted_one; [exact Ha | congruence].
Qed.

End FsFacts.

(** ** The executor *)

Module ExecFacts.

Import StrFacts FsFacts.

Lemma for_each_app {X S : Type} (l1 l2 : list X) (body : X -> S -> M S)
      (s : S) (w : world) :
  for_each (l1 ++ l2) body s w
  = match for_each l1 body s w with
    | (Ret s', w') => for_each l2 body s' w'
    | (Raise e, w') => (Raise e, w')
    end.
Proof.
  revert s w; induction l1 as [|x l1 IH]; intros s w; simpl.
  - reflexivity.
  - unfold bind; destruct (body x s w) as [[s'|e] w']; [apply IH | reflexivity].
Qed.

(** The four ways through the body of the loop of line 31. *)
Lemma delete_one_missing (dry_run : bool) (p : Path) (total : Z) (w : world) :
  lookup p (fs w) = None ->
  delete_one dry_run p total w = (Ret total, w).
Proof.
  intros H; unfold delete_one, bind, exists_; now rewrite H.
Qed.


Lemma delete_one_commit (p : Path) (total : Z) (w : world) (n : node) :
  lookup p (fs w) = Some n -> unlink_error n = None ->
  delete_one false p total w
  = (Ret (total + st_size n),
     mk_world (remove p (fs w)) (console w ++ [Deleting (name p)])%list).
Proof.
  intros H U; unfold delete_one, bind, exists_, stat_size, print, unlink, ret.
  rewrite H; cbv beta iota; rewrite H; cbn [fs console]; rewrite H.
  destruct n as [size [|]|size]; try discriminate; reflexivity.
Qed.

Lemma delete_one_fails (p : Path) (total : Z) (w : world) (n : node)
      (e : exn) :
  lookup p (fs w) = Some n -> unlink_error n = Some e ->
  delete_one false p total w = (Raise e, say w [Deleting (name p)]).
Proof.
  intros H U; unfold delete_one, bind, exists_, stat_size, print, unlink, ret,
    say.
  rewrite H; cbv beta iota; rewrite H; cbn [fs console]; rewrite H.
  destruct n as [size [|]|size]; inversion U; reflexivity.
Qed.

Lemma existing_size_remove (p q : Path) (f : filesystem) :
  p <> q -> existing_size (remove p f) q = existing_size f q.
Proof.
  intros N; unfold existing_size; rewrite lookup_remove.
  apply path_eqb_neq in N; now rewrite N.
Qed.

Lemma sum_sizes_remove (p : Path) (l : list Path) (f : filesystem) :
  ~ In p l -> sum_sizes (remove p f) l = sum_sizes f l.
Proof.
  induction l as [|q l IH]; intros N; simpl; [reflexivity|].
  rewrite existing_size_remove, IH; [reflexivity | |];
    intros H; apply N; [now right | now left].
Qed.


(** With [execute], when no entry met refuses to go, the loop adds up the
    same sizes and removes the entries. *)
Lemma loop_commit (l : list Path) (total : Z) (w : world) :
  NoDup l ->
  (forall p n, In p l -> lookup p (fs w) = Some n -> unlink_error n = None) ->
  exists w',
    for_each l (delete_one false) total w
    = (Ret (total + sum_sizes (fs w) l), w')
    /\ fs w' = remove_all l (fs w).
Proof.
  revert total w; induction l as [|p l IH]; intros total w N U; simpl.
  - exists w; split; [unfold ret; f_equal; f_equal; lia | reflexivity].
  - inversion N as [|? ? Np N']; subst.
    unfold bind, existing_size.
    destruct (lookup p (fs w)) as [n|] eqn:E.
    + rewrite (delete_one_commit _ _ _ _ E (U p n (or_introl eq_refl) E)).
      edestruct (IH (total + st_size n)
                    (mk_world (remove p (fs w))
                              (console w ++ [Deleting (name p)])%list))
        as (w' & -> & F); [exact N' | |].
      * simpl; intros q m I L.
        rewrite lookup_remove in L.
        destruct (path_eqb p q); [discriminate|].
        now apply (U q m); [right|].
      * exists w'; split; [|exact F].
        simpl; rewrite (sum_sizes_remove _ _ _ Np); f_equal; f_equal; lia.
    + rewrite (delete_one_missing _ _ _ _ E).
      destruct (IH total w N') as (w' & -> & F).
      * intros q m I L; now apply (U q m); [right|].
      * exists w'; split; [f_equal|].
        now rewrite F, (remove_missing _ _ E).
Qed.

(** With [execute], at the first entry that refuses to go the loop ends
    with the exception: the entries before it are removed, those after it
    are as they were. *)
Lemma loop_fails (pre post : list Path) (c : Path) (total : Z) (w : world)
      (n : node) (e : exn) :
  NoDup (pre ++ c :: post) ->
  (forall p m, In p pre -> lookup p (fs w) = Some m -> unlink_error m = None) ->
  lookup c (fs w) = Some n -> unlink_error n = Some e ->
  exists w',
    for_each (pre ++ c :: post) (delete_one false) total w = (Raise e, w')
    /\ fs w' = remove_all pre (fs w).
Proof.
  intros N U L E.
  rewrite for_each_app.
  destruct (loop_commit pre total w) as (w1 & -> & F);
    [now apply NoDup_app_remove_r in N | exact U |].
  simpl; unfold bind.
  assert (L1 : lookup c (fs w1) = Some n).
  { rewrite F, lookup_remove_all_other; [exact L|].
    intros I; apply NoDup_remove_2 in N; apply N, in_or_app; now left. }
  rewrite (delete_one_fails _ _ _ _ _ L1 E).
  eexists; split; [reflexivity | exact F].
Qed.

Lemma fs_rel_delete_one (allowed : Path -> Prop) (dry_run : bool) (p : Path)
      (total : Z) :
  (dry_run = false -> allowed p) ->
  fs_rel (deleted allowed) (delete_one dry_run p total).
Proof.
  intros H; unfold delete_one.
  pose proof (deleted_refl allowed) as Rr.
  pose proof (deleted_trans allowed) as Rt.
  apply (fs_rel_bind _ Rt); [apply (fs_rel_exists _ Rr)|].
  intros [|]; [|apply (fs_rel_ret _ Rr)].
  apply (fs_rel_bind _ Rt); [apply (fs_rel_stat_size _ Rr)|].
  intros size; apply (fs_rel_bind _ Rt); [|intros _; apply (fs_rel_ret _ Rr)].
  destruct dry_run; [apply (fs_rel_print _ Rr)|].
  apply (fs_rel_bind _ Rt); [apply (fs_rel_print _ Rr)|].
  intros _; now apply fs_rel_unlink, H.
Qed.

(** The executor only deletes, only with [dry_run = False], and only
    candidates that exist. *)
Lemma fs_rel_delete_backup_files (backup_file : Path) (dry_run : bool) :
  fs_rel (deleted (fun p => dry_run = false
                            /\ In p (related_files backup_file)))
         (delete_backup_files backup_file dry_run).
Proof.
  unfold delete_backup_files.
  apply (fs_rel_for_each _ (deleted_refl _) (deleted_trans _)).
  intros p total I; apply fs_rel_delete_one; now split.
Qed.

End ExecFacts.

(** ** The candidates *)

Module CompanionFacts.

Import StrFacts.

Lemma drop_spec (k : nat) (s : string) : exists a, s = a ++ Str.drop k s.
Proof.
  revert s; induction k as [|k IH]; intros s.
  - now exists EmptyString.
  - destruct s as [|c s]; [now exists EmptyString|].
    destruct (IH s) as [a Ha].
    exists (String c a); simpl; now rewrite <- Ha.
Qed.

Lemma endswith_spec (s p : string) :
  Str.endswith s p = true -> exists a, s = a ++ p.
Proof.
  unfold Str.endswith; intros H.
  apply andb_prop in H as [H _]; apply String.eqb_eq in H.
  destruct (drop_spec (String.length s - String.length p) s) as [a Ha].
  exists a; now rewrite <- H.
Qed.

Lemma append_last_inj (a b : string) (x y : ascii) :
  a ++ String x "" = b ++ String y "" -> x = y.
Proof.
  revert b; induction a as [|c a IH]; intros [|d b] H; simpl in H.
  - now inversion H.
  - inversion H as [[E1 E2]]; destruct b; discriminate.
  - inversion H as [[E1 E2]]; destruct a; discriminate.
  - inversion H; eapply IH; eassumption.
Qed.

Lemma log_is_not_archive (a b : string) : a ++ ".log" <> b ++ ".vma.zst".
Proof.
  change ".log" with (".lo" ++ "g"); change ".vma.zst" with (".vma.zs" ++ "t").
  rewrite <- !append_assoc; intros H.
  apply append_last_inj in H; discriminate.
Qed.

Lemma log_is_not_notes (a b : string) : a ++ ".log" <> b ++ ".notes".
Proof.
  change ".log" with (".lo" ++ "g"); change ".notes" with (".note" ++ "s").
  rewrite <- !append_assoc; intros H.
  apply append_last_inj in H; discriminate.
Qed.

Lemma notes_is_longer (a : string) : a <> a ++ ".notes".
Proof.
  intros H; apply (f_equal String.length) in H.
  rewrite length_append in H; simpl in H; lia.
Qed.

Lemma name_joinpath (p : Path) (s : string) : name (joinpath p s) = s.
Proof. apply last_last. Qed.

Lemma parent_joinpath (p : Path) (s : string) : parent (joinpath p s) = p.
Proof. apply removelast_last. Qed.

(** The three candidates of an archive that the scan of line 113 yields are
    three different places. *)
Lemma related_files_NoDup (backup_file : Path) :
  Str.endswith (name backup_file) ".vma.zst" = true ->
  NoDup (related_files backup_file).
Proof.
  intros H; apply endswith_spec in H as [a Ha].
  unfold related_files.
  repeat constructor; simpl.
  - intros [E|[E|[]]]; apply (f_equal name) in E;
      rewrite name_joinpath in E.
    + rewrite Ha in E at 2; now apply log_is_not_archive in E.
    + symmetry in E; now apply notes_is_longer in E.
  - intros [E|[]]; apply (f_equal name) in E; rewrite !name_joinpath in E.
    symmetry in E; now apply log_is_not_notes in E.
  - intros [].
Qed.

Lemma replace_plain (stem : string) :
  Str.all (fun c => negb (Ascii.eqb c ".")) stem = true ->
  Str.replace (stem ++ ".vma.zst") ".vma.zst" "" = stem.
Proof.
  unfold Str.replace; induction stem as [|c stem IH]; intros H.
  - reflexivity.
  - cbn [Str.all] in H; apply andb_prop in H as [Hc H].
    cbn [append Str.replace_from].
    unfold Str.startswith; cbn [Str.strip_prefix].
    rewrite Ascii.eqb_sym; apply negb_true_iff in Hc; rewrite Hc.
    now rewrite (IH H).
Qed.

(** For an archive whose name has no dot before the extension, the
    candidates are the archive, the stem with [.log] and the name with
    [.notes]. *)
Lemma related_files_plain (dir : Path) (stem : string) :
  Str.all (fun c => negb (Ascii.eqb c ".")) stem = true ->
  related_files (joinpath dir (stem ++ ".vma.zst"))
  = [ joinpath dir (stem ++ ".vma.zst");
      joinpath dir (stem ++ ".log");
      joinpath dir ((stem ++ ".vma.zst") ++ ".notes") ].
Proof.
  intros H; unfold related_files.
  now rewrite name_joinpath, parent_joinpath, (replace_plain _ H).
Qed.

Lemma all_impl (p q : ascii -> bool) (s : string) :
  (forall c, p c = true -> q c = true) ->
  Str.all p s = true -> Str.all q s = true.
Proof.
  intros I; induction s as [|c s IH]; simpl; [reflexivity|].
  intros H; apply andb_prop in H as [Hc Hs].
  now rewrite (I c Hc), (IH Hs).
Qed.

Lemma word_not_dot (c : ascii) :
  Re.is_word c = true -> negb (Ascii.eqb c ".") = true.
Proof.
  destruct (Ascii.eqb_spec c ".") as [->|]; [discriminate | reflexivity].
Qed.

Lemma digit_not_dot (c : ascii) :
  Re.is_digit c = true -> negb (Ascii.eqb c ".") = true.
Proof.
  destruct (Ascii.eqb_spec c ".") as [->|]; [discriminate | reflexivity].
Qed.

Lemma instance_no_dot (g : Re.groups) :
  Re.well_formed g ->
  Str.all (fun c => negb (Ascii.eqb c ".")) (Re.instance g) = true.
Proof.
  intros (N1 & W1 & N2 & W2 & [L3 W3] & [L4 W4] & [L5 W5]
          & [L6 W6] & [L7 W7] & [L8 W8]).
  unfold Re.instance; rewrite !all_append.
  rewrite (all_impl _ _ _ word_not_dot W1).
  rewrite (all_impl _ _ _ digit_not_dot W2), (all_impl _ _ _ digit_not_dot W3),
    (all_impl _ _ _ digit_not_dot W4), (all_impl _ _ _ digit_not_dot W5),
    (all_impl _ _ _ digit_not_dot W6), (all_impl _ _ _ digit_not_dot W7),
    (all_impl _ _ _ digit_not_dot W8).
  reflexivity.
Qed.

(** For the archives that vzdump writes, an instance of the pattern
    followed by [.vma.zst], the base name is the name without the
    extension. *)
Lemma related_files_of_instance (dir : Path) (g : Re.groups) :
  Re.well_formed g ->
  related_files (joinpath dir (Re.instance g ++ ".vma.zst"))
  = [ joinpath dir (Re.instance g ++ ".vma.zst");
      joinpath dir (Re.instance g ++ ".log");
      joinpath dir ((Re.instance g ++ ".vma.zst") ++ ".notes") ].
Proof.
  intros W; apply related_files_plain; now apply instance_no_dot.
Qed.

End CompanionFacts.

(** ** [main] *)

Module MainFacts.

Import FsFacts ExecFacts.

Lemma say_nil (w : world) : say w [] = w.
Proof. destruct w; unfold say; simpl; now rewrite app_nil_r. Qed.


Lemma for_each_print {X : Type} (l : list X) (f : X -> event) (w : world) :
  for_each l (fun x _ => print (f x)) tt w = (Ret tt, say w (map f l)).
Proof.
  revert w; induction l as [|x l IH]; intros w; simpl.
  - now rewrite say_nil.
  - unfold bind, print at 1; rewrite IH; f_equal.
    unfold say; simpl; now rewrite <- app_assoc.
Qed.

Lemma main_no_directory (args : Args) (w : world) :
  lookup (backup_dir args) (fs w) = None ->
  main args w = (Ret (Some 1), say w [NoSuchDirectory (backup_dir args)]).
Proof.
  intros H; unfold main, bind, exists_; rewrite H; reflexivity.
Qed.

Lemma main_not_a_directory (args : Args) (w : world) (size : Z)
      (protected : bool) :
  lookup (backup_dir args) (fs w) = Some (File size protected) ->
  main args w = (Ret (Some 1), say w [NotADirectory (backup_dir args)]).
Proof.
  intros H; unfold main, bind, exists_, is_dir; rewrite H; cbv beta iota;
    cbn [negb]; rewrite H; reflexivity.
Qed.

Lemma main_prefix (args : Args) (w : world) (size : Z) :
  lookup (backup_dir args) (fs w) = Some (Dir size) ->
  main args w
  = (let backup_files := glob_list (backup_dir args) (fs w) in
     match group_from backup_files [] with
     | Raise e =>
         (Raise e, say w [DirectoryExists; FoundFiles (len backup_files)])
     | Ret d =>
         match for_each (plan (keep args) d) (delete_step (execute args)) 0
                        (say w (header args backup_files d)) with
         | (Raise e, w2) => (Raise e, w2)
         | (Ret total_freed, w2) =>
             (Ret None, say w2 (footer (execute args) total_freed))
         end
     end).
Proof.
  intros H; unfold main, bind at 1, exists_; rewrite H; cbn [negb].
  unfold bind at 1, is_dir; rewrite H; cbn [negb].
  unfold bind at 1, print at 1.
  unfold bind at 1, glob_vma_zst; cbn [fs].
  unfold bind at 1, print at 1.
  unfold bind at 1, group_backups.
  rewrite GroupFacts.group_backups_pure.
  cbv zeta.
  destruct (group_from (glob_list (backup_dir args) (fs w)) []) as [d|e].
  - unfold bind at 1, print at 1.
    unfold bind at 1; rewrite for_each_print.
    unfold bind at 1, print at 1.
    unfold bind at 1, print at 1.
    unfold bind at 1.
    match goal with
    | |- context [for_each _ _ 0 ?w1] =>
        replace w1
          with (say w (header args (glob_list (backup_dir args) (fs w)) d))
    end.
    2:{ unfold say, header; cbn [fs console]; f_equal.
        rewrite <- !app_assoc; reflexivity. }
    destruct (for_each _ _ 0 _) as [[total_freed|e] w2]; [|reflexivity].
    unfold footer, bind, print, ret, say.
    destruct (total_freed >? 0), (execute args); cbn [negb fs console app];
      rewrite <- ?app_assoc, ?app_nil_r; try reflexivity.
    now destruct w2.
  - unfold say; cbn [fs console]; rewrite <- app_assoc; reflexivity.
Qed.

End MainFacts.

(** ** What a run may delete *)

Module RunFacts.

Import FsFacts ExecFacts MainFacts.

Lemma In_skipn {A : Type} (x : A) (n : nat) (l : list A) :
  In x (skipn n l) -> In x l.
Proof.
  intros H; rewrite <- (firstn_skipn n l); apply in_or_app; now right.
Qed.

Lemma select_old_incl (keep : Z) (l : list backup) (b : backup) :
  In b (select_old keep l) -> In b l.
Proof.
  unfold select_old, slice_from.
  destruct (len (sort_reverse backup_key l) >? keep); [|contradiction].
  intros H; apply In_skipn in H; now apply sort_reverse_In in H.
Qed.

(** Whatever the sign of [keep], the slice is an end of the sorted group
    and [retained] is what stands in front of it. *)
Lemma select_old_skipn (keep : Z) (l : list backup) :
  exists i,
    (i <= List.length l)%nat
    /\ select_old keep l = skipn i (sort_reverse backup_key l)
    /\ retained keep l = firstn i (sort_reverse backup_key l).
Proof.
  assert (G : forall i, (i <= List.length l)%nat ->
                select_old keep l = skipn i (sort_reverse backup_key l) ->
                retained keep l = firstn i (sort_reverse backup_key l)).
  { intros i L E; unfold retained.
    rewrite E, length_skipn, sort_reverse_length; f_equal; lia. }
  destruct (Z_lt_le_dec keep 0) as [N|P].
  - exists (List.length l - Z.to_nat (- keep))%nat.
    assert (L : (List.length l - Z.to_nat (- keep) <= List.length l)%nat)
      by lia.
    pose proof (PlanFacts.select_old_neg keep l N) as E; auto.
  - exists (Nat.min (Z.to_nat keep) (List.length l)).
    assert (L : (Nat.min (Z.to_nat keep) (List.length l) <= List.length l)%nat)
      by lia.
    assert (E : select_old keep l
                = skipn (Nat.min (Z.to_nat keep) (List.length l))
                        (sort_reverse backup_key l)).
    { rewrite (PlanFacts.select_old_nonneg keep l P).
      destruct (Nat.le_gt_cases (Z.to_nat keep) (List.length l)).
      - now rewrite Nat.min_l.
      - rewrite Nat.min_r by lia.
        rewrite !skipn_all2; try reflexivity;
          rewrite sort_reverse_length; lia. }
    auto.
Qed.

Lemma plan_In (keep : Z) (d : backups_dict) (b : backup) :
  In b (plan keep d) -> exists v l, In (v, l) d /\ In b l.
Proof.
  rewrite PlanFacts.plan_flat_map, in_flat_map.
  intros ([v l] & I & S); exists v, l; split; [exact I|].
  now apply (select_old_incl keep).
Qed.

(** Every selected backup is a file of the scan. *)
Lemma plan_file_scanned (keep : Z) (backup_files : list Path)
      (d : backups_dict) (b : backup) :
  group_from backup_files [] = Ret d ->
  In b (plan keep d) -> In (file b) backup_files.
Proof.
  intros G I; apply plan_In in I as (v & l & Id & Il).
  rewrite (GroupFacts.group_is_scan_order _ _ G v l Id) in Il.
  unfold of_vm in Il; apply filter_In in Il as [Il _].
  now apply GroupFacts.parsed_backups_file in Il.
Qed.

Lemma fs_rel_delete_step (allowed : Path -> Prop) (execute : bool)
      (b : backup) (total : Z) :
  (forall p, execute = true -> In p (related_files (file b)) -> allowed p) ->
  fs_rel (deleted allowed) (delete_step execute b total).
Proof.
  intros H; unfold delete_step.
  pose proof (deleted_refl allowed) as Rr.
  pose proof (deleted_trans allowed) as Rt.
  apply (fs_rel_bind _ Rt); [apply (fs_rel_print _ Rr)|]; intros _.
  apply (fs_rel_bind _ Rt); [|intros freed; apply (fs_rel_ret _ Rr)].
  intros w.
  eapply deleted_weaken; [|apply fs_rel_delete_backup_files].
  intros p [E I]; apply H; [|exact I].
  now destruct execute.
Qed.

Lemma main_only_deletes (args : Args) (w : world) :
  deleted (may_delete args w) (fs w) (fs (snd (main args w))).
Proof.
  destruct (lookup (backup_dir args) (fs w)) as [[size prot|size]|] eqn:L.
  - rewrite (main_not_a_directory _ _ _ _ L); apply deleted_refl.
  - rewrite (main_prefix _ _ _ L); cbv zeta.
    destruct (group_from _ []) as [d|e] eqn:G; [|apply deleted_refl].
    assert (F : fs_rel (deleted (may_delete args w))
                       (for_each (plan (keep args) d)
                                 (delete_step (execute args)) 0)).
    { apply (fs_rel_for_each _ (deleted_refl _) (deleted_trans _)).
      intros b total I; apply fs_rel_delete_step.
      intros p E Ip; split; [exact E|].
      exists (file b); split; [|exact Ip].
      exact (plan_file_scanned (keep args) _ _ _ G I). }
    specialize
      (F (say w (header args (glob_list (backup_dir args) (fs w)) d))).
    destruct (for_each _ _ 0 _) as [[total_freed|e] w2]; exact F.
  - rewrite (main_no_directory _ _ L); apply deleted_refl.
Qed.

Lemma script_world (args : Args) (w : world) :
  snd (script args w) = snd (main args w).
Proof. unfold script; now destruct (main args w) as [[v|e] w']. Qed.

(** The status is 0 exactly when no exception leaves [main]: what [main]
    returns does not count. *)
Lemma script_status (args : Args) (w : world) :
  fst (script args w)
  = match fst (main args w) with Ret _ => 0 | Raise _ => 1 end.
Proof. unfold script; now destruct (main args w) as [[v|e] w']. Qed.

End RunFacts.

(** ** The executor and the run: the statements *)

Example scenario_C_dry_run :
  delete_backup_files Sample.older true
    (mk_world (Sample.two_archives false) [])
  = (Ret 1010,
     mk_world (Sample.two_archives false)
       [DryRunDelete "vzdump-qemu-100-2025_01_01-01_00_00.vma.zst";
        DryRunDelete "vzdump-qemu-100-2025_01_01-01_00_00.log"]).
Proof. reflexivity. Qed.

Example scenario_C_execute :
  delete_backup_files Sample.older false
    (mk_world (Sample.two_archives false) [])
  = (Ret 1010,
     mk_world [(["b"], Dir 4096); (Sample.newer, File 2000 false)]
       [Deleting "vzdump-qemu-100-2025_01_01-01_00_00.vma.zst";
        Deleting "vzdump-qemu-100-2025_01_01-01_00_00.log"]).
Proof. reflexivity. Qed.

Example scenario_F :
  let w := mk_world (Sample.two_archives false) [] in
  let r := script (mk_args ["b"] 1 false) w in
  fst r = 0 /\ fs (snd r) = fs w /\ In (Total false 1010) (console (snd r)).
Proof. vm_compute; repeat split; tauto. Qed.

(** C6: the base name is not the name without its extension when the
    extension also occurs inside the name: [replace] removes every
    occurrence.  The candidate log of the archive [...vma.zst.old.vma.zst]
    is [....old.log], which a run with [--execute] deletes; and for a name
    without the extension at its end the base name is not the name. *)
Theorem related_files_inner_occurrence :
  related_files Sample.twice
  = [ Sample.twice;
      ["b"; "vzdump-qemu-100-2025_01_01-01_00_00.old.log"];
      ["b"; "vzdump-qemu-100-2025_01_01-01_00_00.vma.zst.old.vma.zst.notes"] ]
  /\ Str.endswith (name Sample.twice) ".vma.zst" = true
  /\ name Sample.twice
     = "vzdump-qemu-100-2025_01_01-01_00_00.vma.zst.old" ++ ".vma.zst"
  /\ script (mk_args ["b"] 0 true) (mk_world Sample.twice_fs [])
     = (0, mk_world [(["b"], Dir 4096)]
             [DirectoryExists; FoundFiles 1; PerVmHeader; PerVm 100 1;
              FoundOld 1; Keeping 0;
              Selected 100 (mk_datetime 2025 1 1 1 0 0) (name Sample.twice);
              Deleting (name Sample.twice);
              Deleting "vzdump-qemu-100-2025_01_01-01_00_00.old.log";
              Total true 1010])
  /\ Str.endswith "a.vma.zst.bak" ".vma.zst" = false
  /\ related_files ["b"; "a.vma.zst.bak"]
     = [ ["b"; "a.vma.zst.bak"]; ["b"; "a.bak.log"];
         ["b"; "a.vma.zst.bak.notes"] ].
Proof. repeat split. Qed.




(** C8: whatever the mode and the outcome, the file system after the
    executor, and after the whole run, is the one before it without some
    entries; each of them existed and is a candidate of the archive (for a
    run: of a file of the scan), and there are none unless [--execute] was
    given.  No entry appears and none changes. *)
Theorem mutation_only_deletes :
  (forall backup_file dry_run w,
      let w' := snd (delete_backup_files backup_file dry_run w) in
      deleted (fun p => dry_run = false
                        /\ In p (related_files backup_file))
              (fs w) (fs w')
      /\ (dry_run = true -> fs w' = fs w)
      /\ (forall p n, lookup p (fs w') = Some n -> lookup p (fs w) = Some n))
  /\ (forall args w,
      let w' := snd (script args w) in
      deleted (may_delete args w) (fs w) (fs w')
      /\ (execute args = false -> fs w' = fs w)
      /\ (forall p n, lookup p (fs w') = Some n -> lookup p (fs w) = Some n)).
Proof.
  split.
  - intros backup_file dry_run w w'.
    pose proof (ExecFacts.fs_rel_delete_backup_files backup_file dry_run w)
      as D.
    fold w' in D; repeat split.
    + exact D.
    + intros E; apply (FsFacts.deleted_none _ _ _ ) in D; [exact D|].
      intros p [F _]; congruence.
    + intros p n; now apply (FsFacts.deleted_lookup _ _ _ _ _ D).
  - intros args w w'.
    pose proof (RunFacts.main_only_deletes args w) as D.
    rewrite <- RunFacts.script_world in D; fold w' in D; repeat split.
    + exact D.
    + intros E; apply (FsFacts.deleted_none _ _ _ ) in D; [exact D|].
      intros p [F _]; congruence.
    + intros p n; now apply (FsFacts.deleted_lookup _ _ _ _ _ D).
Qed.

Lemma delete_step_raises (execute : bool) (b : backup) (total : Z)
      (w w' : world) (e : exn) :
  delete_backup_files (file b) (negb execute)
    (say w [Selected (vm_id (info b)) (timestamp (info b)) (name (file b))])
  = (Raise e, w') ->
  delete_step execute b total w = (Raise e, w').
Proof.
  intros H; unfold delete_step, bind, print.
  unfold say in H; now rewrite H.
Qed.

(** C3, as stated, fails: with [--execute] and [--keep 0] on a directory
    with two archives of which the newer cannot be removed, the run ends
    with [PermissionError] at that archive.  Nothing reports the failure,
    the older archive and its log are never reached, and no total is
    printed. *)
Lemma failed_delete_aborts_run :
  let args := mk_args ["b"] 0 true in
  let w := mk_world (Sample.two_archives true) [] in
  fst (main args w) = Raise PermissionError
  /\ script args w
     = (1, mk_world (Sample.two_archives true)
             [DirectoryExists; FoundFiles 2; PerVmHeader; PerVm 100 2;
              FoundOld 2; Keeping 0;
              Selected 100 (mk_datetime 2025 1 2 1 0 0) (name Sample.newer);
              Deleting (name Sample.newer)])
  /\ lookup Sample.older (fs (snd (script args w))) = Some (File 1000 false)
  /\ lookup Sample.older_log (fs (snd (script args w)))
     = Some (File 10 false).
Proof. repeat split. Qed.

(** C3, amended: with [--execute], a delete that fails raises an exception
    that nothing catches.  The executor ends with it at the first candidate
    that cannot be removed: the candidates before it are gone, every other
    entry is as it was, and no size is returned.  The loop over the selected
    backups ends with it at that backup, in the world the executor left, so
    the backups after it are not processed; and [main] ends with it as
    well, without a total, the status of the script being 1. *)
Theorem delete_failure_aborts :
  (forall backup_file w pre c post n e,
      related_files backup_file = (pre ++ c :: post)%list ->
      NoDup (related_files backup_file) ->
      (forall p m, In p pre -> lookup p (fs w) = Some m ->
                   unlink_error m = None) ->
      lookup c (fs w) = Some n -> unlink_error n = Some e ->
      exists w',
        delete_backup_files backup_file false w = (Raise e, w')
        /\ fs w' = remove_all pre (fs w)
        /\ forall q, ~ In q pre -> lookup q (fs w') = lookup q (fs w))
  /\ (forall execute done b rest total w total' w1 e w2,
      for_each done (delete_step execute) total w = (Ret total', w1) ->
      delete_backup_files (file b) (negb execute)
        (say w1 [Selected (vm_id (info b)) (timestamp (info b))
                          (name (file b))])
      = (Raise e, w2) ->
      for_each (done ++ b :: rest) (delete_step execute) total w
      = (Raise e, w2))
  /\ (forall args w size d e w2,
      lookup (backup_dir args) (fs w) = Some (Dir size) ->
      group_from (glob_list (backup_dir args) (fs w)) [] = Ret d ->
      for_each (plan (keep args) d) (delete_step (execute args)) 0
        (say w (header args (glob_list (backup_dir args) (fs w)) d))
      = (Raise e, w2) ->
      main args w = (Raise e, w2) /\ script args w = (1, w2)).
Proof.
  split; [|split].
  - intros backup_file w pre c post n e R N U L E.
    unfold delete_backup_files; rewrite R in *.
    destruct (ExecFacts.loop_fails pre post c 0 w n e N U L E)
      as (w' & H & F).
    exists w'; repeat split; [exact H | exact F |].
    intros q I; rewrite F; now apply FsFacts.lookup_remove_all_other.
  - intros execute done b rest total w total' w1 e w2 H1 H2.
    rewrite ExecFacts.for_each_app, H1; simpl; unfold bind at 1.
    now rewrite (delete_step_raises _ _ _ _ _ _ H2).
  - intros args w size d e w2 L G F.
    assert (E : main args w = (Raise e, w2)).
    { rewrite (MainFacts.main_prefix _ _ _ L); cbv zeta.
      now rewrite G, F. }
    split; [exact E | unfold script; now rewrite E].
Qed.

Lemma delete_failure_aborts_witness :
  exists w',
    delete_backup_files Sample.newer false
      (mk_world (Sample.two_archives true) [])
    = (Raise PermissionError, w')
    /\ fs w' = Sample.two_archives true.
Proof.
  destruct delete_failure_aborts as (H & _ & _).
  destruct (H Sample.newer (mk_world (Sample.two_archives true) [])
              [] Sample.newer (tl (related_files Sample.newer))
              (File 2000 true) PermissionError)
    as (w' & E & F & _).
  - reflexivity.
  - apply CompanionFacts.related_files_NoDup; reflexivity.
  - intros p m [].
  - reflexivity.
  - reflexivity.
  - exists w'; split; [exact E | exact F].
Defined.

(** C4, as stated, fails: with [--keep -1] and [--execute] the run is not
    rejected.  It selects the older of two archives, deletes it with its
    log and ends with status 0. *)
Lemma negative_keep_deletes :
  let args := mk_args ["b"] (-1) true in
  let w := mk_world (Sample.two_archives false) [] in
  keep args < 0
  /\ script args w
     = (0, mk_world [(["b"], Dir 4096); (Sample.newer, File 2000 false)]
             [DirectoryExists; FoundFiles 2; PerVmHeader; PerVm 100 2;
              FoundOld 1; Keeping (-1);
              Selected 100 (mk_datetime 2025 1 1 1 0 0) (name Sample.older);
              Deleting (name Sample.older);
              Deleting (name Sample.older_log);
              Total true 1010])
  /\ lookup Sample.older (fs w) = Some (File 1000 false)
  /\ lookup Sample.older (fs (snd (script args w))) = None.
Proof. repeat split. Qed.

(** C4, amended: a negative retention count is not rejected; the planner
    runs with it.  For [keep < 0] the test of line 137 holds for every
    group and the slice takes the last [min n (- keep)] backups of the
    sorted group, none of them more recent than one that is kept; the run
    goes on to the loop that deletes over the plan, and its status is 0
    unless an exception ends it. *)
Theorem negative_keep_is_planned (keep_count : Z) (backups : list backup) :
  keep_count < 0 ->
  let sorted_group := sort_reverse backup_key backups in
  let old := select_old keep_count backups in
  let kept := retained keep_count backups in
  old = skipn (List.length backups - Z.to_nat (- keep_count)) sorted_group
  /\ sorted_group = (kept ++ old)%list
  /\ len old = Z.min (len backups) (- keep_count)
  /\ (forall r o, In r kept -> In o old ->
        Datetime.leb (backup_key o) (backup_key r) = true)
  /\ (forall args w size d,
        keep args = keep_count ->
        lookup (backup_dir args) (fs w) = Some (Dir size) ->
        group_from (glob_list (backup_dir args) (fs w)) [] = Ret d ->
        let loop :=
          for_each (plan keep_count d) (delete_step (execute args)) 0
            (say w (header args (glob_list (backup_dir args) (fs w)) d)) in
        main args w
        = match loop with
          | (Raise e, w2) => (Raise e, w2)
          | (Ret total_freed, w2) =>
              (Ret None, say w2 (footer (execute args) total_freed))
          end
        /\ fst (script args w)
           = match fst loop with Ret _ => 0 | Raise _ => 1 end).
Proof.
  intros N sorted_group old kept.
  assert (Eo : old = skipn (List.length backups - Z.to_nat (- keep_count))
                           sorted_group)
    by now apply PlanFacts.select_old_neg.
  assert (Es : sorted_group = (kept ++ old)%list).
  { destruct (RunFacts.select_old_skipn keep_count backups)
      as (i & _ & E1 & E2).
    unfold old, kept; rewrite E1, E2; symmetry; apply firstn_skipn. }
  split; [exact Eo | split; [exact Es | split; [|split]]].
  - unfold len; rewrite Eo, length_skipn.
    unfold sorted_group; rewrite sort_reverse_length; lia.
  - pose proof (sort_reverse_descending backup_key backups) as D.
    fold sorted_group in D; rewrite Es in D; now apply descending_app.
  - intros args w size d K L G loop; subst keep_count.
    assert (E : main args w
                = match loop with
                  | (Raise e, w2) => (Raise e, w2)
                  | (Ret total_freed, w2) =>
                      (Ret None, say w2 (footer (execute args) total_freed))
                  end).
    { rewrite (MainFacts.main_prefix _ _ _ L); cbv zeta; now rewrite G. }
    split; [exact E|].
    rewrite RunFacts.script_status, E.
    now destruct loop as [[t|e] w2].
Qed.

Lemma negative_keep_is_planned_witness :
  -1 < 0
  /\ select_old (-1) Sample.five
     = skipn (List.length Sample.five - Z.to_nat (- -1))
             (sort_reverse backup_key Sample.five)
  /\ len (select_old (-1) Sample.five) = Z.min (len Sample.five) (- -1).
Proof.
  split; [lia|].
  pose proof (negative_keep_is_planned (-1) Sample.five ltac:(lia)) as H.
  cbv zeta in H.
  split; apply H.
Defined.

(** C5: the exit status does not tell a missing directory.  In scenario E
    [main] prints the condition and returns 1 without touching the file
    system, but the script drops what [main] returns and ends with status
    0, as it does for a target that is a file; and with a directory that
    exists and a name that [datetime] rejects the status is 1. *)
Theorem exit_status_ignores_return :
  let args := mk_args ["missing"] 3 true in
  let w := mk_world (Sample.two_archives false) [] in
  lookup (backup_dir args) (fs w) = None
  /\ main args w
     = (Ret (Some 1),
        mk_world (Sample.two_archives false) [NoSuchDirectory ["missing"]])
  /\ script args w
     = (0, mk_world (Sample.two_archives false) [NoSuchDirectory ["missing"]])
  /\ script (mk_args ["b"; "vzdump-qemu-100-2025_01_01-01_00_00.log"] 3 true) w
     = (0, mk_world (Sample.two_archives false)
             [NotADirectory ["b"; "vzdump-qemu-100-2025_01_01-01_00_00.log"]])
  /\ fst (script (mk_args ["b"] 3 false)
            (mk_world
               [ (["b"], Dir 4096);
                 (["b"; "vzdump-qemu-100-2025_13_01-01_00_00.vma.zst"],
                  File 1000 false) ] []))
     = 1.
Proof. repeat split. Qed.

(** Whatever the arguments: without the directory [main] returns 1, prints
    one line and leaves the file system alone, and the status is 0. *)
Lemma missing_directory_status (args : Args) (w : world) :
  lookup (backup_dir args) (fs w) = None ->
  main args w = (Ret (Some 1), say w [NoSuchDirectory (backup_dir args)])
  /\ script args w = (0, say w [NoSuchDirectory (backup_dir args)]).
Proof.
  intros H; unfold script.
  now rewrite (MainFacts.main_no_directory _ _ H).
Qed.

(** * Further properties of the run *)

(** ** Grouping by VM *)

Module GroupMore.

Import GroupFacts.

Lemma dict_append_flat (d : backups_dict) (k : Z) (b : backup) :
  Permutation (flat_map snd (dict_append d k b)) (flat_map snd d ++ [b]).
Proof.
  induction d as [|[k' l] d IH]; simpl; [reflexivity|].
  destruct (k' =? k); simpl.
  - rewrite <- !app_assoc; apply Permutation_app_head, Permutation_app_comm.
  - rewrite <- app_assoc; now apply Permutation_app_head.
Qed.

Lemma dict_append_nonempty (d : backups_dict) (k : Z) (b : backup) :
  Forall (fun g => snd g <> []) d ->
  Forall (fun g => snd g <> []) (dict_append d k b).
Proof.
  induction d as [|[k' l] d IH]; intros F; simpl.
  - repeat constructor; discriminate.
  - inversion F as [|? ? Hl F']; subst.
    destruct (k' =? k); constructor; auto.
    simpl; destruct l; discriminate.
Qed.

Lemma group_from_flat (backup_files : list Path) (d0 d : backups_dict) :
  group_from backup_files d0 = Ret d ->
  Permutation (flat_map snd d)
              (flat_map snd d0 ++ parsed_backups backup_files).
Proof.
  revert d0; induction backup_files as [|f r IH]; intros d0 H; simpl in *.
  - inversion H; subst; now rewrite app_nil_r.
  - unfold group_step in H.
    destruct (parse_backup_filename (name f)) as [[i|]|e]; try discriminate.
    + rewrite (IH _ H), dict_append_flat, <- app_assoc; reflexivity.
    + apply (IH _ H).
Qed.

Lemma group_from_nonempty (backup_files : list Path) (d0 d : backups_dict) :
  group_from backup_files d0 = Ret d ->
  Forall (fun g => snd g <> []) d0 -> Forall (fun g => snd g <> []) d.
Proof.
  revert d0; induction backup_files as [|f r IH]; intros d0 H F; simpl in *.
  - now inversion H; subst.
  - unfold group_step in H.
    destruct (parse_backup_filename (name f)) as [[i|]|e]; try discriminate.
    + apply (IH _ H); now apply dict_append_nonempty.
    + now apply (IH _ H).
Qed.

Lemma group_from_keys (backup_files : list Path) (d0 d : backups_dict) :
  group_from backup_files d0 = Ret d ->
  map fst d
  = fold_left
      (fun seen k =>
         if in_dec Z.eq_dec k seen then seen else (seen ++ [k])%list)
      (map (fun b => vm_id (info b)) (parsed_backups backup_files))
      (map fst d0).
Proof.
  revert d0; induction backup_files as [|f r IH]; intros d0 H; simpl in *.
  - now inversion H; subst.
  - unfold group_step in H.
    destruct (parse_backup_filename (name f)) as [[i|]|e]; try discriminate.
    + rewrite (IH _ H), dict_append_keys; reflexivity.
    + apply (IH _ H).
Qed.

Lemma dict_get_key (d : backups_dict) (v : Z) :
  dict_get d v <> [] -> In (v, dict_get d v) d.
Proof.
  induction d as [|[k l] d IH]; simpl; [congruence|].
  destruct (Z.eqb_spec k v) as [->|N]; [now left | right; now apply IH].
Qed.

Lemma group_from_pure (backup_files : list Path) (w w' : world)
      (d : backups_dict) :
  group_backups backup_files w = (Ret d, w') ->
  group_from backup_files [] = Ret d /\ w' = w.
Proof.
  unfold group_backups; rewrite group_backups_pure; intros H.
  now inversion H.
Qed.

End GroupMore.

(** X1: the loop of lines 119 to 125 neither prints nor touches the file
    system, and when no name makes the parser raise it leaves in
    [backups_by_vm] one group per VM id, the ids in the order in which the
    scan first meets them.  The group of an id holds the backups of the
    scan with that id, whatever their kind, in scan order, and is not
    empty; every backup whose name parses is in the group of its id, and the
    groups together are the backups that parse: a file whose name does not
    parse is in no group. *)
Theorem grouping_partitions_scan (backup_files : list Path) (w w' : world)
        (d : backups_dict) :
  group_backups backup_files w = (Ret d, w') ->
  w' = w
  /\ NoDup (map fst d)
  /\ map fst d
     = first_seen (map (fun b => vm_id (info b))
                       (parsed_backups backup_files))
  /\ (forall v l, In (v, l) d ->
        l <> [] /\ l = of_vm v (parsed_backups backup_files))
  /\ (forall b, In b (parsed_backups backup_files) ->
        In (vm_id (info b),
            of_vm (vm_id (info b)) (parsed_backups backup_files)) d)
  /\ Permutation (flat_map snd d) (parsed_backups backup_files).
Proof.
  intros H; apply GroupMore.group_from_pure in H as [G ->].
  split; [reflexivity|].
  split; [apply (GroupFacts.group_from_NoDup _ _ _ G); constructor|].
  split; [apply (GroupMore.group_from_keys _ _ _ G)|].
  split; [|split].
  - intros v l I; split.
    + pose proof (GroupMore.group_from_nonempty _ _ _ G (Forall_nil _)) as F.
      rewrite Forall_forall in F; apply (F (v, l) I).
    + apply (GroupFacts.group_is_scan_order _ _ G v l I).
  - intros b I.
    pose proof (GroupFacts.group_from_get _ _ _ G (vm_id (info b))) as E.
    simpl in E; rewrite <- E; apply GroupMore.dict_get_key.
    rewrite E; intros N.
    assert (I' : In b (of_vm (vm_id (info b)) (parsed_backups backup_files))).
    { unfold of_vm; apply filter_In; split; [exact I | apply Z.eqb_refl]. }
    rewrite N in I'; contradiction.
  - apply (GroupMore.group_from_flat _ _ _ G).
Qed.

Lemma grouping_partitions_scan_witness :
  map fst [(100, [Sample.at_day 3; Sample.at_day 1])]
  = first_seen
      (map (fun b => vm_id (info b))
           (parsed_backups
              [file (Sample.at_day 3); ["b"; "readme.vma.zst"];
               file (Sample.at_day 1)])).
Proof.
  refine (proj1 (proj2 (proj2
            (grouping_partitions_scan
               [file (Sample.at_day 3); ["b"; "readme.vma.zst"];
                file (Sample.at_day 1)]
               (mk_world [] []) (mk_world [] [])
               [(100, [Sample.at_day 3; Sample.at_day 1])] _)))).
  reflexivity.
Defined.

(** ** The loop over the selected backups *)

Module BatchFacts.

Import FsFacts ExecFacts MainFacts.










End BatchFacts.

(** ** Whole runs *)

Module RunMore.

Import FsFacts ExecFacts MainFacts BatchFacts.

Lemma parse_raises_ValueError (s : string) (e : exn) :
  parse_backup_filename s = Raise e -> e = ValueError.
Proof.
  unfold parse_backup_filename, Datetime.new.
  destruct (Re.re_match s) as [[g rest]|]; [|discriminate].
  destruct (Datetime.valid _ _ _ _ _ _); [discriminate|].
  now intros H; inversion H.
Qed.

Lemma group_from_error (backup_files : list Path) (d0 : backups_dict)
      (e : exn) :
  group_from backup_files d0 = Raise e -> e = ValueError.
Proof.
  revert d0; induction backup_files as [|f r IH]; intros d0 H; simpl in H.
  - discriminate.
  - unfold group_step in H.
    destruct (parse_backup_filename (name f)) as [[i|]|e'] eqn:P.
    + now apply IH in H.
    + now apply IH in H.
    + inversion H; subst; now apply parse_raises_ValueError in P.
Qed.

Lemma group_from_raises (backup_files : list Path) (d0 : backups_dict)
      (f : Path) (e : exn) :
  In f backup_files -> parse_backup_filename (name f) = Raise e ->
  group_from backup_files d0 = Raise ValueError.
Proof.
  revert d0; induction backup_files as [|g r IH]; intros d0 I P;
    [contradiction|].
  simpl; unfold group_step.
  destruct (parse_backup_filename (name g)) as [[i|]|e'] eqn:Pg.
  - destruct I as [->|I]; [congruence | now apply IH].
  - destruct I as [->|I]; [congruence | now apply IH].
  - now rewrite (parse_raises_ValueError _ _ Pg).
Qed.

Lemma header_with_execute (args : Args) (e : bool)
      (backup_files : list Path) (d : backups_dict) :
  header (with_execute args e) backup_files d = header args backup_files d.
Proof. reflexivity. Qed.



End RunMore.

(** X2: a name of the scan that [datetime] rejects ends the run before
    anything is selected or deleted, whatever [--keep] and [--execute]:
    [main] raises [ValueError] after its first two lines, the file system
    is as it was and the status of the script is 1. *)
Theorem invalid_date_aborts_before_deleting (args : Args) (w : world)
        (size : Z) (f : Path) (e : exn) :
  lookup (backup_dir args) (fs w) = Some (Dir size) ->
  In f (glob_list (backup_dir args) (fs w)) ->
  parse_backup_filename (name f) = Raise e ->
  main args w
  = (Raise ValueError,
     say w [DirectoryExists;
            FoundFiles (len (glob_list (backup_dir args) (fs w)))])
  /\ script args w
     = (1, say w [DirectoryExists;
                  FoundFiles (len (glob_list (backup_dir args) (fs w)))])
  /\ fs (snd (main args w)) = fs w.
Proof.
  intros L I P.
  assert (E : main args w
              = (Raise ValueError,
                 say w [DirectoryExists;
                        FoundFiles
                          (len (glob_list (backup_dir args) (fs w)))])).
  { rewrite (MainFacts.main_prefix _ _ _ L); cbv zeta.
    now rewrite (RunMore.group_from_raises _ [] f e I P). }
  split; [exact E | split].
  - unfold script; now rewrite E.
  - now rewrite E.
Qed.

Lemma invalid_date_aborts_before_deleting_witness :
  fs (snd (main (mk_args ["b"] 0 true)
             (mk_world
                [ (["b"], Dir 4096);
                  (Sample.older, File 1000 false);
                  (["b"; "vzdump-qemu-100-2025_02_30-01_00_00.vma.zst"],
                   File 1000 false) ] [])))
  = [ (["b"], Dir 4096);
      (Sample.older, File 1000 false);
      (["b"; "vzdump-qemu-100-2025_02_30-01_00_00.vma.zst"],
       File 1000 false) ].
Proof.
  refine (proj2 (proj2
            (invalid_date_aborts_before_deleting
               (mk_args ["b"] 0 true) _ 4096
               ["b"; "vzdump-qemu-100-2025_02_30-01_00_00.vma.zst"]
               ValueError _ _ _))).
  - reflexivity.
  - vm_compute; tauto.
  - reflexivity.
Defined.



(** The candidates must be different places for that: two archives whose
    names differ by a second [.vma.zst] share their log candidate, which
    the dry run counts twice and the run with [--execute] removes once. *)
Example shared_log_counted_twice :
  let w :=
    mk_world
      [ (["b"], Dir 4096);
        (Sample.older, File 1000 false);
        (["b"; "vzdump-qemu-100-2025_01_01-01_00_00.vma.zst.vma.zst"],
         File 2000 false);
        (Sample.older_log, File 10 false) ] [] in
  In (Total false 3020) (console (snd (main (mk_args ["b"] 0 false) w)))
  /\ In (Total true 3010) (console (snd (main (mk_args ["b"] 0 true) w))).
Proof. vm_compute; split; tauto. Qed.


Module ExecMore.

Import FsFacts ExecFacts.

Lemma deleted_stays_missing (allowed : Path -> Prop) (f g : filesystem)
      (p : Path) :
  deleted allowed f g -> lookup p f = None -> lookup p g = None.
Proof.
  intros D H; destruct (lookup p g) as [n|] eqn:E; [|reflexivity].
  rewrite (deleted_lookup _ _ _ _ _ D E) in H; discriminate.
Qed.

Lemma delete_one_gone (p : Path) (total t : Z) (w w' : world) :
  delete_one false p total w = (Ret t, w') -> lookup p (fs w') = None.
Proof.
  destruct (lookup p (fs w)) as [n|] eqn:E.
  - destruct (unlink_error n) as [e|] eqn:U.
    + rewrite (delete_one_fails _ _ _ _ _ E U); discriminate.
    + rewrite (delete_one_commit _ _ _ _ E U); intros H; inversion H.
      simpl; now rewrite lookup_remove, path_eqb_refl.
  - rewrite (delete_one_missing _ _ _ _ E); intros H; inversion H; subst.
    exact E.
Qed.

(** When the loop of line 31 comes to its end with [--execute], none of
    the entries it went through exists any more. *)
Lemma loop_leaves_nothing (l : list Path) (total t : Z) (w w' : world) :
  for_each l (delete_one false) total w = (Ret t, w') ->
  forall p, In p l -> lookup p (fs w') = None.
Proof.
  revert total w; induction l as [|q l IH]; intros total w H p I;
    [contradiction|].
  simpl in H; unfold bind in H.
  destruct (delete_one false q total w) as [[t1|e] w1] eqn:E1;
    [|discriminate].
  destruct I as [<-|I]; [|now apply (IH _ _ H)].
  apply delete_one_gone in E1.
  pose proof (fs_rel_for_each _ (deleted_refl _) (deleted_trans _) l
                (delete_one false)
                (fun x s _ => fs_rel_delete_one (fun _ => True) false x s
                                (fun _ => I))
                t1 w1) as D.
  rewrite H in D; simpl in D.
  now apply (deleted_stays_missing _ _ _ _ D).
Qed.

(** Where no candidate exists the loop does nothing at all. *)
Lemma loop_nothing_to_do (dry_run : bool) (l : list Path) (total : Z)
      (w : world) :
  (forall p, In p l -> lookup p (fs w) = None) ->
  for_each l (delete_one dry_run) total w = (Ret total, w).
Proof.
  induction l as [|q l IH]; intros H; simpl; [reflexivity|].
  unfold bind; rewrite delete_one_missing by (apply H; now left).
  apply IH; intros p I; apply H; now right.
Qed.

End ExecMore.

(** X6: deleting is idempotent.  When the executor returns with
    [dry_run = False], none of the three candidates exists any more,
    whether or not they were three different places; called again, in
    either mode, it returns 0, prints nothing and changes nothing. *)
Theorem executor_leaves_no_candidate (backup_file : Path) (t : Z)
        (w w' : world) :
  delete_backup_files backup_file false w = (Ret t, w') ->
  (forall p, In p (related_files backup_file) -> lookup p (fs w') = None)
  /\ forall dry_run,
       delete_backup_files backup_file dry_run w' = (Ret 0, w').
Proof.
  unfold delete_backup_files; intros H.
  pose proof (ExecMore.loop_leaves_nothing _ _ _ _ _ H) as G.
  split; [exact G|].
  intros dry_run; now apply ExecMore.loop_nothing_to_do.
Qed.

Lemma executor_leaves_no_candidate_witness :
  let w' :=
    mk_world [(["b"], Dir 4096); (Sample.newer, File 2000 false)]
      [Deleting "vzdump-qemu-100-2025_01_01-01_00_00.vma.zst";
       Deleting "vzdump-qemu-100-2025_01_01-01_00_00.log"] in
  delete_backup_files Sample.older true w' = (Ret 0, w')
  /\ delete_backup_files Sample.older false w' = (Ret 0, w').
Proof.
  intros w'.
  pose proof (proj2 (executor_leaves_no_candidate Sample.older 1010
                       (mk_world (Sample.two_archives false) []) w'
                       eq_refl)) as H.
  split; apply H.
Defined.

(** ** Where a run deletes *)

Module ScopeFacts.

Import StrFacts FsFacts ExecFacts MainFacts CompanionFacts.

Lemma In_lookup (p : Path) (n : node) (f : filesystem) :
  In (p, n) f -> lookup p f <> None.
Proof.
  induction f as [|[q m] f IH]; intros I; [contradiction|]; simpl.
  destruct (path_eqb p q) eqn:E; [discriminate|].
  destruct I as [I|I]; [|now apply IH].
  inversion I; subst; now rewrite path_eqb_refl in E.
Qed.

Lemma glob_list_In (dir f : Path) (fsys : filesystem) :
  In f (glob_list dir fsys) ->
  is_child dir f = true
  /\ Str.endswith (name f) ".vma.zst" = true
  /\ lookup f fsys <> None.
Proof.
  unfold glob_list; rewrite in_map_iff.
  intros ([q n] & <- & I); apply filter_In in I as [I C]; simpl in *.
  apply andb_prop in C as [C1 C2].
  repeat split; [exact C1 | exact C2 | now apply (In_lookup _ n)].
Qed.

Lemma is_child_spec (dir p : Path) :
  is_child dir p = true -> p <> [] /\ parent p = dir.
Proof.
  unfold is_child; destruct p as [|c p]; [discriminate|].
  intros H; apply path_eqb_eq in H; split; [discriminate | exact H].
Qed.

Lemma parent_shorter (p : Path) : p <> [] -> parent p <> p.
Proof.
  intros N E; unfold parent in E.
  pose proof (app_removelast_last EmptyString N) as H.
  rewrite E in H; apply (f_equal (@List.length string)) in H.
  rewrite length_app in H; simpl in H; lia.
Qed.

Lemma drop_append (a p : string) : Str.drop (String.length a) (a ++ p) = p.
Proof. induction a as [|c a IH]; simpl; [reflexivity | exact IH]. Qed.

Lemma endswith_append (a p : string) : Str.endswith (a ++ p) p = true.
Proof.
  unfold Str.endswith; rewrite length_append.
  replace (String.length a + String.length p - String.length p)%nat
    with (String.length a) by lia.
  rewrite drop_append, String.eqb_refl; simpl.
  apply Nat.leb_le; lia.
Qed.

Lemma joinpath_nonempty (p : Path) (s : string) : joinpath p s <> [].
Proof. unfold joinpath; destruct p; discriminate. Qed.

(** A candidate of a file of the scan lies in the scanned directory and
    has one of three endings. *)
Lemma candidate_in_directory (dir file p : Path) (fsys : filesystem) :
  In file (glob_list dir fsys) -> In p (related_files file) ->
  p <> [] /\ parent p = dir
  /\ (Str.endswith (name p) ".vma.zst" = true
      \/ Str.endswith (name p) ".log" = true
      \/ Str.endswith (name p) ".notes" = true).
Proof.
  intros G I; apply glob_list_In in G as (C & E & _).
  apply is_child_spec in C as [N P].
  unfold related_files in I; simpl in I.
  destruct I as [<-|[<-|[<-|[]]]].
  - repeat split; auto.
  - rewrite parent_joinpath, name_joinpath, P.
    repeat split; [apply joinpath_nonempty|].
    right; left; apply endswith_append.
  - rewrite parent_joinpath, name_joinpath, P.
    repeat split; [apply joinpath_nonempty|].
    right; right; apply endswith_append.
Qed.

Lemma deleted_other (allowed : Path -> Prop) (f g : filesystem) (p : Path) :
  deleted allowed f g -> ~ allowed p -> lookup p g = lookup p f.
Proof.
  intros (ps & -> & F) N; apply lookup_remove_all_other.
  intros I; rewrite Forall_forall in F; now apply N, F.
Qed.

(** A run deletes among the candidates of the backups it selected. *)
Lemma main_deletes_selected (args : Args) (w : world) (size : Z)
      (d : backups_dict) :
  lookup (backup_dir args) (fs w) = Some (Dir size) ->
  group_from (glob_list (backup_dir args) (fs w)) [] = Ret d ->
  deleted (fun p => execute args = true
                    /\ In p (candidates_of (plan (keep args) d)))
          (fs w) (fs (snd (main args w))).
Proof.
  intros L G; rewrite (main_prefix _ _ _ L); cbv zeta; rewrite G.
  assert (F : fs_rel (deleted (fun p => execute args = true
                                        /\ In p (candidates_of
                                                   (plan (keep args) d))))
                     (for_each (plan (keep args) d)
                               (delete_step (execute args)) 0)).
  { apply (fs_rel_for_each _ (deleted_refl _) (deleted_trans _)).
    intros b total I; apply RunFacts.fs_rel_delete_step.
    intros p E Ip; split; [exact E|].
    unfold candidates_of; apply in_flat_map; now exists b. }
  specialize
    (F (say w (header args (glob_list (backup_dir args) (fs w)) d))).
  destruct (for_each _ _ 0 _) as [[total_freed|e] w2]; exact F.
Qed.

End ScopeFacts.

(** X7: a run deletes nowhere but in the target directory.  An entry that
    exists before a run and not after it is a direct child of
    [backup_dir] whose name ends in [.vma.zst], [.log] or [.notes], it is a
    candidate of a file of the scan, and [--execute] was given; the target
    directory itself is after the run what it was before. *)
Theorem run_deletes_inside_directory (args : Args) (w : world) :
  (forall p,
      lookup p (fs w) <> None ->
      lookup p (fs (snd (main args w))) = None ->
      execute args = true
      /\ parent p = backup_dir args
      /\ (Str.endswith (name p) ".vma.zst" = true
          \/ Str.endswith (name p) ".log" = true
          \/ Str.endswith (name p) ".notes" = true)
      /\ exists backup_file,
           In backup_file (glob_list (backup_dir args) (fs w))
           /\ In p (related_files backup_file))
  /\ lookup (backup_dir args) (fs (snd (main args w)))
     = lookup (backup_dir args) (fs w).
Proof.
  pose proof (RunFacts.main_only_deletes args w) as D.
  split.
  - intros p B A.
    destruct (FsFacts.deleted_gone _ _ _ _ D B A) as (X & f & G & I).
    destruct (ScopeFacts.candidate_in_directory _ _ _ _ G I) as (_ & P & E).
    repeat split; try assumption.
    now exists f.
  - apply (ScopeFacts.deleted_other _ _ _ _ D).
    intros (_ & f & G & I).
    destruct (ScopeFacts.candidate_in_directory _ _ _ _ G I) as (N & P & _).
    now apply (ScopeFacts.parent_shorter _ N).
Qed.

Lemma run_deletes_inside_directory_witness :
  parent Sample.older_log = ["b"]
  /\ Str.endswith (name Sample.older_log) ".log" = true.
Proof.
  destruct (proj1 (run_deletes_inside_directory
                     (mk_args ["b"] 1 true)
                     (mk_world (Sample.two_archives false) []))
                  Sample.older_log)
    as (_ & P & [E|[E|E]] & _);
    try (vm_compute; congruence); try (vm_compute in E; discriminate).
  split; [exact P | exact E].
Defined.

(** ** What a run keeps *)

Module KeepFacts.

Import StrFacts FsFacts CompanionFacts ScopeFacts.

Lemma NoDup_map_filter {X Y : Type} (f : X -> Y) (p : X -> bool)
      (l : list X) :
  NoDup (map f l) -> NoDup (map f (filter p l)).
Proof.
  induction l as [|x l IH]; intros N; simpl in *; [constructor|].
  inversion N as [|? ? Nx N']; subst.
  destruct (p x); [|now apply IH].
  simpl; constructor; [|now apply IH].
  intros I; apply Nx.
  apply in_map_iff in I as (y & E & I); apply filter_In in I as [I _].
  rewrite <- E; now apply in_map.
Qed.

Lemma glob_list_NoDup (dir : Path) (fsys : filesystem) :
  NoDup (map fst fsys) -> NoDup (glob_list dir fsys).
Proof. apply NoDup_map_filter. Qed.

Lemma parsed_files_NoDup (backup_files : list Path) :
  NoDup backup_files -> NoDup (map file (parsed_backups backup_files)).
Proof.
  induction backup_files as [|f r IH]; intros N; simpl; [constructor|].
  inversion N as [|? ? Nf N']; subst.
  destruct (parse_backup_filename (name f)) as [[i|]|e]; try now apply IH.
  simpl; constructor; [|now apply IH].
  intros I; apply Nf.
  apply in_map_iff in I as (b & <- & I).
  now apply GroupFacts.parsed_backups_file in I.
Qed.

(** A backup of the scan is determined by its file. *)
Lemma parsed_backups_inj (backup_files : list Path) (b b' : backup) :
  In b (parsed_backups backup_files) ->
  In b' (parsed_backups backup_files) ->
  file b = file b' -> b = b'.
Proof.
  intros I I' E.
  apply GroupFacts.parsed_backups_file in I as [_ P].
  apply GroupFacts.parsed_backups_file in I' as [_ P'].
  rewrite E, P' in P; inversion P as [Ei].
  destruct b, b'; simpl in *; now subst.
Qed.

Lemma parsed_backups_NoDup (backup_files : list Path) :
  NoDup backup_files -> NoDup (parsed_backups backup_files).
Proof.
  intros N; apply (NoDup_map_inv file), parsed_files_NoDup, N.
Qed.

Lemma NoDup_app_disjoint {X : Type} (a b : list X) (x : X) :
  NoDup (a ++ b) -> In x a -> In x b -> False.
Proof.
  induction a as [|y a IH]; intros N Ia Ib; [contradiction|].
  simpl in N; inversion N as [|? ? Ny N']; subst.
  destruct Ia as [->|Ia]; [apply Ny, in_or_app; now right | now apply IH].
Qed.

Lemma notes_is_not_archive (a b : string) : a ++ ".notes" <> b ++ ".vma.zst".
Proof.
  change ".notes" with (".note" ++ "s");
    change ".vma.zst" with (".vma.zs" ++ "t").
  rewrite <- !append_assoc; intros H.
  apply append_last_inj in H; discriminate.
Qed.

Lemma retained_all_In (keep : Z) (d : backups_dict) (b : backup) :
  In b (retained_all keep d) ->
  exists v l, In (v, l) d /\ In b (retained keep l).
Proof.
  unfold retained_all; rewrite in_flat_map.
  intros ([v l] & I & R); now exists v, l.
Qed.

Lemma plan_In_select (keep : Z) (d : backups_dict) (b : backup) :
  In b (plan keep d) ->
  exists v l, In (v, l) d /\ In b (select_old keep l).
Proof.
  rewrite PlanFacts.plan_flat_map, in_flat_map.
  intros ([v l] & I & S); now exists v, l.
Qed.

Lemma retained_incl (keep : Z) (l : list backup) (b : backup) :
  In b (retained keep l) -> In b l.
Proof.
  destruct (RunFacts.select_old_skipn keep l) as (i & _ & _ & ->).
  intros I; apply (sort_reverse_In backup_key).
  rewrite <- (firstn_skipn i); apply in_or_app; now left.
Qed.

(** In a group without repetition no backup is both kept and selected. *)
Lemma retained_not_selected (keep : Z) (l : list backup) (b : backup) :
  NoDup l -> In b (retained keep l) -> In b (select_old keep l) -> False.
Proof.
  intros N.
  destruct (RunFacts.select_old_skipn keep l) as (i & _ & -> & ->).
  apply NoDup_app_disjoint; rewrite firstn_skipn.
  apply (Permutation_NoDup
           (Permutation_sym (sort_reverse_perm backup_key l)) N).
Qed.

(** With distinct entries in the file system, the archive of a backup
    that is kept is no candidate of a backup that is selected. *)
Lemma retained_file_not_candidate (keep : Z) (dir : Path)
      (fsys : filesystem) (d : backups_dict) (b : backup) :
  NoDup (map fst fsys) ->
  group_from (glob_list dir fsys) [] = Ret d ->
  In b (retained_all keep d) ->
  ~ In (file b) (candidates_of (plan keep d)).
Proof.
  intros N G R C.
  pose proof (parsed_backups_NoDup _ (glob_list_NoDup dir _ N)) as Np.
  apply retained_all_In in R as (v & l & Il & R).
  unfold candidates_of in C; apply in_flat_map in C as (b' & S & C).
  apply plan_In_select in S as (v' & l' & Il' & S).
  pose proof (GroupFacts.group_is_scan_order _ _ G v l Il) as El.
  pose proof (GroupFacts.group_is_scan_order _ _ G v' l' Il') as El'.
  assert (Ib : In b (parsed_backups (glob_list dir fsys))).
  { apply retained_incl in R; rewrite El in R.
    now apply filter_In in R as [R _]. }
  assert (Ib' : In b' (parsed_backups (glob_list dir fsys))).
  { apply RunFacts.select_old_incl in S; rewrite El' in S.
    now apply filter_In in S as [S _]. }
  destruct (GroupFacts.parsed_backups_file _ _ Ib) as [Gb _].
  apply glob_list_In in Gb as (_ & E & _).
  apply endswith_spec in E as [a Ea].
  unfold related_files in C; simpl in C.
  destruct C as [C|[C|[C|[]]]].
  - assert (b' = b) by (now apply (parsed_backups_inj _ _ _ Ib' Ib)).
    subst b'.
    assert (v' = v).
    { apply retained_incl in R; apply RunFacts.select_old_incl in S.
      rewrite El in R; rewrite El' in S.
      apply filter_In in R as [_ R]; apply filter_In in S as [_ S].
      apply Z.eqb_eq in R, S; congruence. }
    subst v'; rewrite <- El in El'; subst l'.
    apply (retained_not_selected keep l b); try assumption.
    rewrite El; now apply NoDup_filter.
  - apply (f_equal name) in C; rewrite name_joinpath, Ea in C.
    now apply log_is_not_archive in C.
  - apply (f_equal name) in C; rewrite name_joinpath, Ea in C.
    now apply notes_is_not_archive in C.
Qed.

End KeepFacts.

(** X8: the archives that the planner keeps outlive the run.  In a file
    system with distinct entries, the archive of every backup in front of
    the slice of its group, the [keep] most recent ones when
    [keep >= 0], exists after the run as it did before, whatever the mode
    and even when the run ends with an exception. *)
Theorem retained_archives_survive (args : Args) (w : world) (size : Z)
        (d : backups_dict) (b : backup) :
  NoDup (map fst (fs w)) ->
  lookup (backup_dir args) (fs w) = Some (Dir size) ->
  group_from (glob_list (backup_dir args) (fs w)) [] = Ret d ->
  In b (retained_all (keep args) d) ->
  lookup (file b) (fs w) <> None
  /\ lookup (file b) (fs (snd (main args w))) = lookup (file b) (fs w).
Proof.
  intros N L G R; split.
  - apply KeepFacts.retained_all_In in R as (v & l & Il & R).
    apply KeepFacts.retained_incl in R.
    rewrite (GroupFacts.group_is_scan_order _ _ G v l Il) in R.
    apply filter_In in R as [R _].
    apply GroupFacts.parsed_backups_file in R as [R _].
    now apply ScopeFacts.glob_list_In in R.
  - apply (ScopeFacts.deleted_other _ _ _ _
             (ScopeFacts.main_deletes_selected args w size d L G)).
    intros [_ C].
    now apply (KeepFacts.retained_file_not_candidate _ _ _ _ _ N G R).
Qed.

Lemma retained_archives_survive_witness :
  lookup Sample.newer
    (fs (snd (main (mk_args ["b"] 1 true)
                (mk_world (Sample.two_archives false) []))))
  = lookup Sample.newer (Sample.two_archives false).
Proof.
  refine (proj2 (retained_archives_survive
                   (mk_args ["b"] 1 true)
                   (mk_world (Sample.two_archives false) []) 4096
                   [(100, [mk_backup Sample.older
                             (mk_info "qemu" 100
                                (mk_datetime 2025 1 1 1 0 0));
                           mk_backup Sample.newer
                             (mk_info "qemu" 100
                                (mk_datetime 2025 1 2 1 0 0))])]
                   (mk_backup Sample.newer
                      (mk_info "qemu" 100 (mk_datetime 2025 1 2 1 0 0)))
                   _ _ _ _)).
  - vm_compute; repeat constructor; simpl; intuition discriminate.
  - reflexivity.
  - reflexivity.
  - vm_compute; tauto.
Defined.

(** ** The base name *)

Module ReplaceFacts.

Import StrFacts.

Lemma occurs_tail (old : string) (c : ascii) (t : string) :
  occurs old (String c t) -> Str.startswith (String c t) old = false ->
  occurs old t.
Proof.
  intros (a & b & E) S.
  destruct a as [|x a].
  - simpl in E; unfold Str.startswith in S.
    rewrite E, strip_prefix_append in S; discriminate.
  - simpl in E; inversion E; now exists a, b.
Qed.

Lemma startswith_occurs (old s : string) :
  Str.startswith s old = true -> occurs old s.
Proof.
  unfold Str.startswith.
  destruct (Str.strip_prefix old s) as [t|] eqn:E; [|discriminate].
  intros _; apply strip_prefix_spec in E; now exists EmptyString, t.
Qed.

Lemma occurs_cons (old : string) (c : ascii) (t : string) :
  occurs old t -> occurs old (String c t).
Proof. intros (a & b & ->); now exists (String c a), b. Qed.

(** Without an occurrence [replace] returns the string. *)
Lemma replace_without_occurrence (old new s : string) :
  ~ occurs old s -> Str.replace s old new = s.
Proof.
  unfold Str.replace; induction s as [|c s IH]; intros N; simpl;
    [reflexivity|].
  destruct (Str.startswith (String c s) old) eqn:S.
  - exfalso; now apply N, startswith_occurs.
  - rewrite IH; [reflexivity|].
    intros O; now apply N, occurs_cons.
Qed.

(** Removing occurrences never makes the string longer. *)
Lemma replace_from_length (old s : string) (skip : nat) :
  (String.length (Str.replace_from old "" skip s) <= String.length s)%nat.
Proof.
  revert skip; induction s as [|c s IH]; intros skip; simpl; [lia|].
  destruct skip as [|k]; [|specialize (IH k); lia].
  destruct (Str.startswith (String c s) old).
  - simpl; specialize (IH (String.length old - 1)%nat); lia.
  - simpl; specialize (IH 0%nat); lia.
Qed.

(** With an occurrence of a non-empty [old] the result is shorter. *)
Lemma replace_with_occurrence (old s : string) :
  old <> EmptyString -> occurs old s ->
  (String.length (Str.replace s old "") < String.length s)%nat.
Proof.
  unfold Str.replace; intros Ne; induction s as [|c s IH]; intros O.
  - exfalso; destruct O as (a & b & E).
    destruct a; [destruct old; [contradiction | discriminate]
                | discriminate].
  - simpl.
    destruct (Str.startswith (String c s) old) eqn:S.
    + simpl.
      pose proof (replace_from_length old s (String.length old - 1)); lia.
    + simpl; apply occurs_tail in O; [|exact S].
      specialize (IH O); lia.
Qed.

End ReplaceFacts.

(** X9: the base name of line 21 is the name itself exactly when
    [.vma.zst] occurs nowhere in the name, at its end or elsewhere;
    otherwise it is strictly shorter.  So for a name without the extension
    the log candidate is the name followed by [.log]. *)
Theorem base_name_is_name_iff (backup_file : Path) :
  let file_name := name backup_file in
  let base_name := Str.replace file_name ".vma.zst" "" in
  (base_name = file_name <-> ~ occurs ".vma.zst" file_name)
  /\ (occurs ".vma.zst" file_name ->
      (String.length base_name < String.length file_name)%nat)
  /\ (~ occurs ".vma.zst" file_name ->
      related_files backup_file
      = [ backup_file;
          joinpath (parent backup_file) (file_name ++ ".log");
          joinpath (parent backup_file) (file_name ++ ".notes") ]).
Proof.
  intros file_name base_name.
  assert (Ne : ".vma.zst" <> EmptyString) by discriminate.
  split; [split|split].
  - intros E O.
    pose proof (ReplaceFacts.replace_with_occurrence _ _ Ne O) as L.
    fold base_name in L; rewrite E in L; lia.
  - apply ReplaceFacts.replace_without_occurrence.
  - apply (ReplaceFacts.replace_with_occurrence _ _ Ne).
  - intros N; unfold related_files; fold file_name.
    now rewrite (ReplaceFacts.replace_without_occurrence _ _ _ N).
Qed.

(** ** The report and the size of the plan *)

Module ReportFacts.

Lemma insert_Z_perm (x : Z) (l : list Z) : Permutation (insert_Z x l) (x :: l).
Proof.
  induction l as [|y l IH]; simpl; [reflexivity|].
  destruct (y <? x); [|reflexivity].
  rewrite IH; apply perm_swap.
Qed.

Lemma sorted_perm (l : list Z) : Permutation (sorted l) l.
Proof.
  induction l as [|x l IH]; simpl; [reflexivity|].
  rewrite insert_Z_perm; now apply perm_skip.
Qed.

Lemma insert_Z_sorted (x : Z) (l : list Z) :
  StronglySorted Z.le l -> StronglySorted Z.le (insert_Z x l).
Proof.
  induction l as [|y l IH]; intros S; simpl.
  - repeat constructor.
  - inversion S as [|? ? S' F]; subst.
    destruct (Z.ltb_spec y x) as [L|G].
    + constructor; [now apply IH|].
      apply (Permutation_Forall (Permutation_sym (insert_Z_perm x l))).
      constructor; [lia | exact F].
    + constructor; [exact S|].
      constructor; [exact G|].
      eapply Forall_impl; [|exact F]; intros z Hz; simpl in *; lia.
Qed.

Lemma sorted_ascending (l : list Z) : StronglySorted Z.le (sorted l).
Proof.
  induction l as [|x l IH]; simpl; [constructor|].
  now apply insert_Z_sorted.
Qed.

Lemma ascending_strict (l : list Z) :
  StronglySorted Z.le l -> NoDup l -> StronglySorted Z.lt l.
Proof.
  induction 1 as [|x l S IH F]; intros N; [constructor|].
  inversion N as [|? ? Nx N']; subst.
  constructor; [now apply IH|].
  rewrite Forall_forall in *; intros y I.
  specialize (F y I).
  assert (x <> y) by (intros ->; contradiction).
  lia.
Qed.

Lemma sum_Z_perm (l l' : list Z) :
  Permutation l l' -> sum_Z l = sum_Z l'.
Proof.
  induction 1; simpl; try lia.
Qed.

Lemma sum_Z_app (a b : list Z) : sum_Z (a ++ b) = sum_Z a + sum_Z b.
Proof. induction a as [|x a IH]; simpl; [reflexivity | rewrite IH; lia]. Qed.

Lemma len_flat_map {X Y : Type} (f : X -> list Y) (d : list X) :
  len (flat_map f d) = sum_Z (map (fun x => len (f x)) d).
Proof.
  unfold len; induction d as [|x d IH]; simpl; [reflexivity|].
  rewrite length_app, Nat2Z.inj_add, IH; reflexivity.
Qed.

Lemma dict_get_keys (d : backups_dict) :
  NoDup (map fst d) ->
  map (fun vm => len (dict_get d vm)) (map fst d)
  = map (fun g => len (snd g)) d.
Proof.
  induction d as [|[k l] d IH]; intros N; simpl; [reflexivity|].
  inversion N as [|? ? Nk N']; subst.
  rewrite Z.eqb_refl; f_equal.
  rewrite <- (IH N'); apply map_ext_in; intros v I.
  destruct (Z.eqb_spec k v) as [->|_]; [contradiction | reflexivity].
Qed.

Lemma parsed_backups_length (backup_files : list Path) :
  len (parsed_backups backup_files) <= len backup_files.
Proof.
  unfold len; induction backup_files as [|f r IH]; simpl; [lia|].
  destruct (parse_backup_filename (name f)) as [[i|]|e]; simpl; lia.
Qed.

Lemma flat_map_both {X Y : Type} (f g : X -> list Y) (d : list X) :
  Permutation (flat_map f d ++ flat_map g d)
              (flat_map (fun x => (f x ++ g x)%list) d).
Proof.
  induction d as [|x d IH]; simpl; [reflexivity|].
  rewrite <- IH, <- !app_assoc; apply Permutation_app_head.
  rewrite !app_assoc; apply Permutation_app_tail, Permutation_app_comm.
Qed.

Lemma flat_map_perm {X Y : Type} (f g : X -> list Y) (d : list X) :
  (forall x, Permutation (f x) (g x)) ->
  Permutation (flat_map f d) (flat_map g d).
Proof.
  intros H; induction d as [|x d IH]; simpl; [reflexivity|].
  now apply Permutation_app.
Qed.

(** What a group keeps and what it gives to [old_backups] make up the
    group. *)
Lemma retained_select_old (keep : Z) (l : list backup) :
  Permutation (retained keep l ++ select_old keep l) l.
Proof.
  destruct (RunFacts.select_old_skipn keep l) as (i & _ & -> & ->).
  rewrite firstn_skipn; apply sort_reverse_perm.
Qed.

Lemma select_old_len (keep : Z) (l : list backup) :
  len (select_old keep l)
  = if keep <? 0 then Z.min (len l) (- keep) else Z.max 0 (len l - keep).
Proof.
  unfold len; destruct (Z.ltb_spec keep 0) as [N|P].
  - rewrite (PlanFacts.select_old_neg _ _ N), length_skipn,
      sort_reverse_length; lia.
  - rewrite (PlanFacts.select_old_nonneg _ _ P), length_skipn,
      sort_reverse_length; lia.
Qed.

End ReportFacts.

(** X11: the plan splits the backups of the scan.  What the groups keep
    and [old_backups] are together the backups whose name parses, each
    one once; [old_backups] has [max 0 (n - keep)] backups of a group of
    [n] when [keep >= 0] and [min n (- keep)] when [keep < 0]; and every
    selected backup is a file of the scan whose name parses to its
    [info]. *)
Theorem plan_partitions_backups (keep_count : Z) (backup_files : list Path)
        (d : backups_dict) :
  group_from backup_files [] = Ret d ->
  Permutation (retained_all keep_count d ++ plan keep_count d)
              (parsed_backups backup_files)
  /\ len (plan keep_count d)
     = sum_Z (map (fun group =>
                     if keep_count <? 0
                     then Z.min (len (snd group)) (- keep_count)
                     else Z.max 0 (len (snd group) - keep_count)) d)
  /\ (forall b, In b (plan keep_count d) ->
        In (file b) backup_files
        /\ parse_backup_filename (name (file b)) = Ret (Some (info b))).
Proof.
  intros G; split; [|split].
  - unfold retained_all; rewrite PlanFacts.plan_flat_map.
    rewrite ReportFacts.flat_map_both.
    rewrite <- (GroupMore.group_from_flat _ _ _ G); simpl.
    apply ReportFacts.flat_map_perm.
    intros g; apply ReportFacts.retained_select_old.
  - rewrite PlanFacts.plan_flat_map, ReportFacts.len_flat_map.
    f_equal; apply map_ext; intros g; apply ReportFacts.select_old_len.
  - intros b I.
    apply RunFacts.plan_In in I as (v & l & Il & I).
    rewrite (GroupFacts.group_is_scan_order _ _ G v l Il) in I.
    apply filter_In in I as [I _].
    now apply GroupFacts.parsed_backups_file.
Qed.

Lemma plan_partitions_backups_witness :
  len (plan 1 [(100, [Sample.at_day 3; Sample.at_day 1])]) = 1 + 0.
Proof.
  refine (proj1 (proj2
            (plan_partitions_backups 1
               [file (Sample.at_day 3); file (Sample.at_day 1)]
               [(100, [Sample.at_day 3; Sample.at_day 1])] _))).
  reflexivity.
Defined.

(** ** What the executor prints *)

Module ListingFacts.

Import FsFacts ExecFacts MainFacts BatchFacts.




End ListingFacts.



(** ** The lines of a run *)

Module LinesFacts.

Import FsFacts ExecFacts MainFacts BatchFacts.




End LinesFacts.



(** In a directory without backups a dry run prints no total. *)
Example dry_run_of_empty_directory :
  main (mk_args ["b"] 3 false) (mk_world [(["b"], Dir 4096)] [])
  = (Ret None,
     mk_world [(["b"], Dir 4096)]
       [DirectoryExists; FoundFiles 0; PerVmHeader; FoundOld 0; Keeping 3;
        DryRunNotice]).
Proof. reflexivity. Qed.

(** X10: the report of the scan is what [main] prints first.  For a
    directory whose names all parse, [main] prints that the directory
    exists, the number of files found and the headline, then one line per
    VM id, the ids strictly ascending and each id that of some backup of
    the scan, with the number of backups of the scan that have this id;
    these numbers are positive and add up to the number of files whose name
    parses, which the number of files found may exceed.  Then come the
    number of selected backups and [keep], and the loop of line 145. *)
Theorem per_vm_report_ascending (args : Args) (w : world) (size : Z)
        (d : backups_dict) :
  lookup (backup_dir args) (fs w) = Some (Dir size) ->
  group_from (glob_list (backup_dir args) (fs w)) [] = Ret d ->
  let backup_files := glob_list (backup_dir args) (fs w) in
  let parsed := parsed_backups backup_files in
  let count := fun vm =>
    len (filter (fun b => vm_id (info b) =? vm) parsed) in
  exists vms,
    StronglySorted Z.lt vms
    /\ (forall vm, In vm vms <->
                   exists b, In b parsed /\ vm_id (info b) = vm)
    /\ (forall vm, In vm vms -> 0 < count vm)
    /\ sum_Z (map count vms) = len parsed
    /\ len parsed <= len backup_files
    /\ main args w
       = match for_each (plan (keep args) d) (delete_step (execute args)) 0
                 (say w ([DirectoryExists; FoundFiles (len backup_files);
                          PerVmHeader]
                         ++ map (fun vm => PerVm vm (count vm)) vms
                         ++ [FoundOld (len (plan (keep args) d));
                             Keeping (keep args)])) with
         | (Raise e, w2) => (Raise e, w2)
         | (Ret total_freed, w2) =>
             (Ret None,
              say w2 ((if total_freed >? 0
                       then [Total (execute args) total_freed] else [])
                      ++ (if negb (execute args)
                          then [DryRunNotice] else [])))
         end.
Proof.
  intros L G backup_files parsed count.
  pose proof (GroupFacts.group_from_NoDup _ _ _ G (NoDup_nil _)) as N.
  pose proof (ReportFacts.sorted_perm (map fst d)) as P.
  assert (C : forall vm, len (dict_get d vm) = count vm).
  { intros vm; unfold count.
    now rewrite (GroupFacts.group_from_get _ _ _ G vm). }
  assert (K : forall vm, In vm (map fst d) <->
                         exists b, In b parsed /\ vm_id (info b) = vm).
  { intros vm; split.
    - intros I; apply in_map_iff in I as ([v l] & <- & I); simpl.
      pose proof (GroupMore.group_from_nonempty _ _ _ G (Forall_nil _)) as F.
      rewrite Forall_forall in F; specialize (F _ I); simpl in F.
      rewrite (GroupFacts.group_is_scan_order _ _ G v l I) in F.
      destruct (of_vm v (parsed_backups (glob_list (backup_dir args) (fs w))))
        as [|b r] eqn:E; [contradiction|].
      assert (Ib : In b (of_vm v (parsed_backups
                                    (glob_list (backup_dir args) (fs w)))))
        by (rewrite E; now left).
      unfold of_vm in Ib; apply filter_In in Ib as [Ib V].
      exists b; split; [exact Ib | now apply Z.eqb_eq].
    - intros (b & Ib & <-).
      pose proof (GroupFacts.group_from_get _ _ _ G (vm_id (info b))) as E.
      simpl in E.
      assert (I : In (vm_id (info b), dict_get d (vm_id (info b))) d).
      { apply GroupMore.dict_get_key; rewrite E; intros Z.
        assert (I' : In b (of_vm (vm_id (info b)) parsed)).
        { unfold of_vm; apply filter_In; split;
            [exact Ib | apply Z.eqb_refl]. }
        unfold parsed, backup_files in I'; rewrite Z in I'; contradiction. }
      apply in_map_iff.
      now exists (vm_id (info b), dict_get d (vm_id (info b))). }
  exists (sorted (map fst d)).
  split; [|split; [|split; [|split; [|split]]]].
  - apply ReportFacts.ascending_strict;
      [apply ReportFacts.sorted_ascending|].
    apply (Permutation_NoDup (Permutation_sym P) N).
  - intros vm; rewrite <- K; split; apply Permutation_in;
      [exact P | now apply Permutation_sym].
  - intros vm I; apply (Permutation_in _ P) in I.
    apply K in I as (b & Ib & V).
    assert (I' : In b (filter (fun b => vm_id (info b) =? vm) parsed))
      by (apply filter_In; split; [exact Ib | now apply Z.eqb_eq]).
    unfold count, len.
    destruct (filter (fun b => vm_id (info b) =? vm) parsed);
      [contradiction | simpl; lia].
  - rewrite <- (map_ext _ _ C).
    rewrite (ReportFacts.sum_Z_perm _ _
               (Permutation_map (fun vm => len (dict_get d vm)) P)).
    rewrite (ReportFacts.dict_get_keys _ N),
      <- (ReportFacts.len_flat_map snd d).
    unfold len; f_equal; apply Permutation_length.
    apply (GroupMore.group_from_flat _ _ _ G).
  - apply ReportFacts.parsed_backups_length.
  - rewrite (MainFacts.main_prefix _ _ _ L); cbv zeta; rewrite G.
    unfold header, footer; fold backup_files.
    now rewrite (map_ext _ _ (fun vm => f_equal (PerVm vm) (C vm))).
Qed.

(** A scan that meets VM 101 before VM 100 and a name that does not
    parse. *)
Lemma per_vm_report_ascending_witness :
  let w :=
    mk_world
      [ (["b"], Dir 4096);
        (["b"; "vzdump-lxc-101-2025_01_03-01_00_00.vma.zst"],
         File 3000 false);
        (["b"; "notes.vma.zst"], File 3 false);
        (Sample.older, File 1000 false) ] [] in
  exists vms,
    StronglySorted Z.lt vms
    /\ (forall vm, In vm vms <-> vm = 101 \/ vm = 100)
    /\ console (snd (main (mk_args ["b"] 3 false) w))
       = ([DirectoryExists; FoundFiles 3; PerVmHeader]
          ++ map (fun vm =>
                    PerVm vm
                      (len (filter (fun b => vm_id (info b) =? vm)
                              (parsed_backups (glob_list ["b"] (fs w))))))
                 vms
          ++ [FoundOld 0; Keeping 3; DryRunNotice])%list.
Proof.
  intros w.
  destruct (per_vm_report_ascending
              (mk_args ["b"] 3 false) w 4096
              [(101, [mk_backup
                        ["b"; "vzdump-lxc-101-2025_01_03-01_00_00.vma.zst"]
                        (mk_info "lxc" 101 (mk_datetime 2025 1 3 1 0 0))]);
               (100, [mk_backup Sample.older
                        (mk_info "qemu" 100 (mk_datetime 2025 1 1 1 0 0))])]
              eq_refl eq_refl)
    as (vms & S & M & _ & _ & _ & E).
  exists vms; split; [exact S | split].
  - intros vm; rewrite M; split.
    + intros (b & [<-|[<-|[]]] & <-); [now left | now right].
    + intros [-> | ->].
      * exists (mk_backup
                  ["b"; "vzdump-lxc-101-2025_01_03-01_00_00.vma.zst"]
                  (mk_info "lxc" 101 (mk_datetime 2025 1 3 1 0 0))).
        split; [vm_compute; tauto | reflexivity].
      * exists (mk_backup Sample.older
                  (mk_info "qemu" 100 (mk_datetime 2025 1 1 1 0 0))).
        split; [vm_compute; tauto | reflexivity].
  - rewrite E.
    change (plan _ _) with (@nil backup).
    cbn [for_each ret keep execute backup_dir negb len List.length Z.of_nat
         Z.gtb Z.compare snd say console fs app].
    change (console w) with (@nil event).
    cbn [app].
    rewrite <- app_assoc; reflexivity.
Defined.
